(** * Mementor: a shallow embedding of [mementor.go] and its properties

    The development follows the Go source function by function.

    - Go's [int] and [int64] are 64-bit two's-complement integers: they are
      modelled as [Z], and the one arithmetic operation of the program that
      can leave the range ([lastId + 1] in [add]) is wrapped explicitly.
    - Go strings are byte sequences: they are modelled as [string].
    - The store is a slice of pointers ([[]*Memento]).  The records live in
      a heap of cells, a slice is a list of addresses, and a field
      assignment through a pointer updates the cell.
    - Every command reads [flag.Args()], the clock and the data file.  The
      argument list and the clock are parameters; the data file is a
      component of the [world] the commands run in.  The file is kept in
      decoded form (the JSON text itself is not modelled), and opening,
      reading and writing it are taken to succeed. *)

From Stdlib Require Import ZArith String Ascii List Lia Sorted.
From stdpp Require Import base tactics option list sorting.
From Equations Require Import Equations.
Import ListNotations.

Local Open Scope string_scope.
Local Open Scope list_scope.
Local Open Scope Z_scope.

(** ** Machine integers *)

Module GoInt.

Definition intSize : Z := 64.
Definition minInt : Z := - 2 ^ (intSize - 1).
Definition maxInt : Z := 2 ^ (intSize - 1) - 1.

(** The value an [int] holds after an operation whose mathematical result
    is [z]: reduction modulo [2 ^ 64] into the signed range. *)
Definition wrap (z : Z) : Z :=
  (z - minInt) mod 2 ^ intSize + minInt.

Definition in_range (z : Z) : Prop := minInt <= z <= maxInt.

(** [a + b] on [int]s. *)
Definition plus (a b : Z) : Z := wrap (a + b).

End GoInt.

(** ** The parts of Go's standard library the program calls *)

Module strings.

(** [strings.Split(s, sep)] for a one-byte separator: the segments of [s]
    between the occurrences of [sep]; there is always at least one. *)
Fixpoint Split (s : string) (sep : ascii) : list string :=
  match s with
  | EmptyString => [EmptyString]
  | String c s' =>
      if Ascii.eqb c sep then EmptyString :: Split s' sep
      else match Split s' sep with
           | seg :: segs => String c seg :: segs
           | [] => [String c EmptyString]
           end
  end.

(** [strings.Join(elems, sep)]. *)
Definition Join (elems : list string) (sep : string) : string :=
  String.concat sep elems.

End strings.

Module regexp.

(** The two patterns of [modify] are [^pri.*] and [^m.*].  [MatchString]
    looks for a match anywhere in the text, [^] pins it to the start and
    [.*] may match nothing, so either pattern matches exactly the texts
    that begin with its literal part. *)
Definition rePriority : string := "pri".
Definition reMsg : string := "m".

Definition MatchString (literal s : string) : bool := String.prefix literal s.

End regexp.

Module strconv.

Definition digit (c : ascii) : option Z :=
  let n := Z.of_nat (nat_of_ascii c) in
  if (48 <=? n) && (n <=? 57) then Some (n - 48) else None.

(** The digits of [ParseUint(s, 10, _)], most significant first, folded
    into [acc]; [None] is the syntax error on a byte that is no digit. *)
Fixpoint digits (s : string) (acc : Z) : option Z :=
  match s with
  | EmptyString => Some acc
  | String c s' =>
      match digit c with
      | Some d => digits s' (10 * acc + d)
      | None => None
      end
  end.

Definition ParseUint (s : string) : option Z :=
  match s with
  | EmptyString => None
  | _ => digits s 0
  end.

(** [strconv.ParseInt(s, 10, 0)]: an optional sign, then at least one
    decimal digit, and the value must fit an [int].  [None] stands for
    any returned error (syntax or range); the program only tests
    [err != nil]. *)
Definition ParseInt (s : string) : option Z :=
  match s with
  | EmptyString => None
  | String c s' =>
      let neg := Ascii.eqb c "-" in
      let body := if Ascii.eqb c "+" || neg then s' else s in
      match ParseUint body with
      | None => None
      | Some un =>
          let cutoff := 2 ^ (GoInt.intSize - 1) in
          if negb neg && (cutoff <=? un) then None
          else if neg && (cutoff <? un) then None
          else Some (if neg then - un else un)
      end
  end.

End strconv.

Module sort.

(** [sort.Search(n, f)]: the loop [for i < j] of the library, on the
    interval [[i, j)]; [h] is [int(uint(i+j) >> 1)]. *)
Equations? Search_loop (f : nat -> bool) (i j : nat) : nat by wf (j - i)%nat lt :=
  Search_loop f i j with lt_dec i j := {
    | left _ =>
        let h := ((i + j) / 2)%nat in
        if negb (f h) then Search_loop f (h + 1) j
        else Search_loop f i h ;
    | right _ => i }.
Proof.
  all: subst h; change (fst (Nat.divmod (i + j) 1 0 1)) with ((i + j) / 2)%nat.
  all: assert (i <= (i + j) / 2 < j)%nat
    by (split; [apply Nat.div_le_lower_bound | apply Nat.Div0.div_lt_upper_bound]; lia);
    lia.
Qed.

Definition Search (n : nat) (f : nat -> bool) : nat := Search_loop f 0 n.

End sort.

(** ** The data model *)

(** [type Memento struct { Id int; Msg string; Time int64; Priority int }] *)
Record Memento : Type := mkMemento {
  Id : Z;
  Msg : string;
  Time : Z;
  Priority : Z
}.

Definition with_Priority (m : Memento) (v : Z) : Memento :=
  {| Id := Id m; Msg := Msg m; Time := Time m; Priority := v |}.

Definition with_Msg (m : Memento) (s : string) : Memento :=
  {| Id := Id m; Msg := s; Time := Time m; Priority := Priority m |}.

(** A [*Memento] is the address of a heap cell. *)
Definition ptr : Type := nat.

(** The errors the commands return, one constructor per message of the
    source; [Panic] is a run-time panic (index or slice bound out of range,
    dangling address). *)
Inductive error : Type :=
| NotEnoughArguments             (* "Not enough arguments" *)
| BadModification                (* "Your modification must be in the form of property:value" *)
| NotANumber (s : string)        (* "Not a number: %v" *)
| InvalidProperty (s : string)   (* "You are trying to modify invalid property: %s" *)
| NoMessage                      (* "Please specify the message." *)
| DoesNotExist (id : Z)          (* "Memento %d does not exist" *)
| MissingId                      (* "Missing memento Id in arguments" *)
| InvalidId (s : string)         (* "Invalid memento Id: %v" *)
| Panic.

(** What a command runs in: the decoded content of the data file, the number
    of times the file has been rewritten, the heap of the process and the
    lines printed by [fetch]. *)
Record world : Type := mkWorld {
  file : list Memento;
  writes : nat;
  heap : list Memento;
  stdout : list string
}.

(** The world a process starts in when the data file holds [stored]. *)
Definition boot (stored : list Memento) : world :=
  {| file := stored; writes := 0; heap := []; stdout := [] |}.

(** ** Commands: state and errors *)

Definition M (A : Type) : Type := world -> (error + A) * world.

Definition ret {A} (a : A) : M A := fun w => (inr a, w).

Definition fail {A} (e : error) : M A := fun w => (inl e, w).

Definition bind {A B} (c : M A) (k : A -> M B) : M B :=
  fun w => match c w with
           | (inr a, w') => k a w'
           | (inl e, w') => (inl e, w')
           end.

Declare Scope cmd_scope.
Delimit Scope cmd_scope with cmd.
Notation "x <- c ;; k" := (bind c (fun x => k))
  (at level 100, c at next level, right associativity) : cmd_scope.
Notation "c ;;; k" := (bind c (fun _ => k))
  (at level 100, right associativity) : cmd_scope.
Local Open Scope cmd_scope.

(** A call of a function that returns [(value, error)] and touches nothing. *)
Definition call {A} (r : error + A) : M A := fun w => (r, w).

Fixpoint mapM {A B} (f : A -> M B) (l : list A) : M (list B) :=
  match l with
  | [] => ret []
  | a :: l' => b <- f a ;; bs <- mapM f l' ;; ret (b :: bs)
  end.

(** *** The heap *)

(** [&Memento{...}]: a fresh cell. *)
Definition new (m : Memento) : M ptr :=
  fun w => (inr (length (heap w)),
            {| file := file w; writes := writes w;
               heap := heap w ++ [m]; stdout := stdout w |}).

(** [*p] *)
Definition load (p : ptr) : M Memento :=
  fun w => match heap w !! p with
           | Some m => (inr m, w)
           | None => (inl Panic, w)
           end.

(** [*p = m] *)
Definition store (p : ptr) (m : Memento) : M unit :=
  fun w => match heap w !! p with
           | Some _ => (inr tt,
                        {| file := file w; writes := writes w;
                           heap := <[p := m]> (heap w); stdout := stdout w |})
           | None => (inl Panic, w)
           end.

(** [s[i]], with Go's bounds check. *)
Definition index {A} (s : list A) (i : nat) : M A :=
  match s !! i with
  | Some a => ret a
  | None => fail Panic
  end.

(** [s[lo:hi]], with Go's bounds check. *)
Definition slice {A} (s : list A) (lo hi : nat) : M (list A) :=
  if (lo <=? hi)%nat && (hi <=? length s)%nat
  then ret (take (hi - lo) (drop lo s))
  else fail Panic.

(** The records a slice of pointers points to, in slice order. *)
Definition records (mementos : list ptr) : M (list Memento) :=
  mapM load mementos.

(** *** The data file *)

(** [readMementos]: the JSON decoder allocates one cell per array element
    and returns the slice of their addresses. *)
Definition readMementos : M (list ptr) :=
  fun w => mapM new (file w) w.

(** [writeMementos]: the file is truncated and the records the slice points
    to are written in slice order. *)
Definition writeMementos (mementos : list ptr) : M unit :=
  ms <- records mementos ;;
  fun w => (inr tt,
            {| file := ms; writes := S (writes w);
               heap := heap w; stdout := stdout w |}).

(** [fmt.Println(s)] *)
Definition Println (s : string) : M unit :=
  fun w => (inr tt,
            {| file := file w; writes := writes w;
               heap := heap w; stdout := stdout w ++ [s] |}).

(** ** The program *)

(** The zero value of [Memento]; it stands for reads the bounds checks of
    Go exclude, which [sort.Search] never performs. *)
Definition zeroMemento : Memento :=
  {| Id := 0; Msg := ""; Time := 0; Priority := 0 |}.

(** [findMementoById]: the function only reads the records, so it is given
    the records its slice points to. *)
Definition findMementoById (mementos : list Memento) (id : Z) : nat * bool :=
  let count := length mementos in
  let n := sort.Search count (fun i => Id (nth i mementos zeroMemento) >=? id) in
  if (n <? count)%nat && (Id (nth n mementos zeroMemento) =? id)
  then (n, true)
  else (0%nat, false).

(** [parseId]: it reads the arguments only. *)
Definition parseId (args : list string) : error + Z :=
  if (length args <? 2)%nat then inl MissingId
  else
    match strconv.ParseInt (nth 1 args "") with
    | Some id => if id <? 0 then inl (InvalidId (nth 1 args "")) else inr id
    | None => inl (InvalidId (nth 1 args ""))
    end.

(** [m.Priority = v] and [m.Msg = s] through the pointer [m]. *)
Definition set_Priority (m : ptr) (v : Z) : M unit :=
  r <- load m ;; store m (with_Priority r v).

Definition set_Msg (m : ptr) (s : string) : M unit :=
  r <- load m ;; store m (with_Msg r s).

(** [modify] *)
Definition modify (args : list string) : M unit :=
  if (length args <? 3)%nat then fail NotEnoughArguments
  else
    id <- call (parseId args) ;;
    mementos <- readMementos ;;
    ms <- records mementos ;;
    let '(n, ok) := findMementoById ms id in
    if negb ok then fail (DoesNotExist id)
    else
      m <- index mementos n ;;
      let mod_ := strings.Split (nth 2 args "") ":" in
      if (length mod_ <? 2)%nat then fail BadModification
      else if regexp.MatchString regexp.rePriority (nth 0 mod_ "") then
        match strconv.ParseInt (nth 1 mod_ "") with
        | None => fail (NotANumber (nth 1 mod_ ""))
        | Some value =>
            set_Priority m value ;;;
            writeMementos mementos
        end
      else if regexp.MatchString regexp.reMsg (nth 0 mod_ "") then
        set_Msg m (nth 0 mod_ "") ;;;
        writeMementos mementos
      else fail (InvalidProperty (nth 0 mod_ "")).

(** [add]; [now] is [time.Now().Unix()]. *)
Definition add (now : Z) (args : list string) : M unit :=
  if (length args <? 2)%nat then fail NoMessage
  else
    let msg := strings.Join (drop 1 args) " " in
    mementos <- readMementos ;;
    lastId <- (if (length mementos <? 1)%nat then ret 0
               else
                 lastMemento <- index mementos (length mementos - 1) ;;
                 r <- load lastMemento ;;
                 ret (Id r)) ;;
    m <- new {| Id := GoInt.plus lastId 1; Msg := msg; Time := now; Priority := 1 |} ;;
    writeMementos (mementos ++ [m]).

(** [remove]; [append(before, after...)] is the concatenation. *)
Definition remove (args : list string) : M unit :=
  id <- call (parseId args) ;;
  mementos <- readMementos ;;
  ms <- records mementos ;;
  let '(n, ok) := findMementoById ms id in
  if negb ok then fail (DoesNotExist id)
  else
    before <- slice mementos 0 n ;;
    after <- slice mementos (n + 1) (length mementos) ;;
    writeMementos (before ++ after).

Section Fetch.

(** [rand.Seed(seed); rand.Intn(n)]: the first draw below [n] of the
    generator seeded with [seed]. *)
Variable Intn : Z -> nat -> nat.

(** [fetch] *)
Definition fetch (now : Z) : M unit :=
  mementos <- readMementos ;;
  if (length mementos <? 1)%nat then ret tt
  else
    let n := Intn now (length mementos) in
    p <- index mementos n ;;
    r <- load p ;;
    Println (Msg r).

End Fetch.


(** ** The vocabulary of the properties *)

(** The heap [h] holds the records [ms] at the addresses [ps]. *)
Definition points_to (h : list Memento) (ps : list ptr) (ms : list Memento) : Prop :=
  Forall2 (fun p m => h !! p = Some m) ps ms.

Definition ids (ms : list Memento) : list Z := map Id ms.

(** Sorted ascending by id (equal ids allowed). *)
Definition sorted_by_id (ms : list Memento) : Prop := Sorted Z.le (ids ms).

(** Ids strictly ascending, hence unique. *)
Definition ascending (ms : list Memento) : Prop := Sorted Z.lt (ids ms).

(** [x] is the largest id of [ms]. *)
Definition is_max (x : Z) (ms : list Memento) : Prop :=
  In x (ids ms) /\ Forall (fun y => y <= x) (ids ms).

(** The id of the last record, 0 when there is none: the [lastId] of [add]. *)
Definition lastId (ms : list Memento) : Z :=
  match last ms with Some m => Id m | None => 0 end.

(** The record [add] builds on a store that holds [ms]. *)
Definition added (now : Z) (args : list string) (ms : list Memento) : Memento :=
  {| Id := GoInt.plus (lastId ms) 1; Msg := strings.Join (drop 1 args) " ";
     Time := now; Priority := 1 |}.

(** [s] holds no colon. *)
Definition colon_free (s : string) : Prop :=
  ~ In ":"%char (list_ascii_of_string s).

(** The content of the data file after a process has run [c] on a file that
    held [stored]. *)
Definition invoke (c : M unit) (stored : list Memento) : list Memento :=
  file (snd (c (boot stored))).

Inductive operation : Type :=
| Add (now : Z) (args : list string)
| Remove (args : list string).

Definition perform (o : operation) : M unit :=
  match o with
  | Add now args => add now args
  | Remove args => remove args
  end.

(** One process per operation, each on the file the previous one left. *)
Definition run (ops : list operation) (stored : list Memento) : list Memento :=
  fold_left (fun s o => invoke (perform o) s) ops stored.

(** How many [Add]s a sequence holds. *)
Fixpoint adds (ops : list operation) : nat :=
  match ops with
  | [] => 0%nat
  | Add _ _ :: ops' => S (adds ops')
  | Remove _ :: ops' => adds ops'
  end.

(** A store to run the commands on. *)
Definition sample : list Memento :=
  [ {| Id := 1; Msg := "buy milk"; Time := 1700000000; Priority := 1 |};
    {| Id := 2; Msg := "call mom"; Time := 1700000060; Priority := 1 |};
    {| Id := 5; Msg := "water the plants"; Time := 1700000120; Priority := 3 |} ].

(** A store whose only record carries the largest id an [int] holds. *)
Definition full : list Memento :=
  [ {| Id := GoInt.maxInt; Msg := "last"; Time := 1700000000; Priority := 1 |} ].

(** ** The rest of the program: printing, [list], [help] and [main] *)

Module fmt.

(** The character of the decimal digit [d]. *)
Definition digit_char (d : Z) : ascii := ascii_of_nat (Z.to_nat (48 + d)).

(** The decimal digits of a number that is not negative, most significant
    first, by repeated division by 10. *)
Equations? decimal (n : Z) : string by wf (Z.to_nat n) lt :=
decimal n with Z_lt_dec n 10 := {
  | left _ => String (digit_char n) EmptyString ;
  | right _ => (decimal (n / 10) ++ String (digit_char (n mod 10)) EmptyString)%string }.
Proof.
  assert (0 <= n / 10 < n) by (split; [apply Z.div_pos | apply Z.div_lt]; lia).
  lia.
Qed.

(** The verb [%d] on an integer. *)
Definition verb_d (z : Z) : string :=
  if z <? 0 then String "-" (decimal (- z)) else decimal z.

Fixpoint spaces (n : nat) : string :=
  match n with
  | O => EmptyString
  | S n' => String " " (spaces n')
  end.

(** A minimum width on a text of [runes] runes: spaces on the left. *)
Definition pad (width runes : nat) (s : string) : string :=
  (spaces (width - runes) ++ s)%string.

(** The verb [%3d]: the sign and the digits are one byte each. *)
Definition verb_3d (z : Z) : string :=
  pad 3 (String.length (verb_d z)) (verb_d z).

End fmt.

(** The escape byte of the colour sequences and the line feed. *)
Definition esc : string := String (ascii_of_nat 27) EmptyString.
Definition nl : string := String (ascii_of_nat 10) EmptyString.

(** [fmt.Print(text)], and [fmt.Printf] once the text is formatted.  [stdout]
    lists the texts of the print calls; the line [writeMementos] prints
    about the bytes written and the debug log are not recorded. *)
Definition Print (text : string) : M unit :=
  fun w => (inr tt,
            {| file := file w; writes := writes w;
               heap := heap w; stdout := stdout w ++ [text] |}).

(** [for _, a := range l { body }] *)
Fixpoint forM_ {A} (l : list A) (body : A -> M unit) : M unit :=
  match l with
  | [] => ret tt
  | a :: l' => body a ;;; forM_ l' body
  end.

(** [const version] *)
Definition version : string := "0.2.0".

(** [err.Error()]: the message each error was built with; [%d] prints the
    id in decimal, [%v] and [%s] print a string as it is.  A panic is no
    error value. *)
Definition Error (e : error) : string :=
  match e with
  | NotEnoughArguments => "Not enough arguments"
  | BadModification => "Your modification must be in the form of property:value"
  | NotANumber s => "Not a number: " ++ s
  | InvalidProperty s => "You are trying to modify invalid property: " ++ s
  | NoMessage => "Please specify the message."
  | DoesNotExist id => "Memento " ++ fmt.verb_d id ++ " does not exist"
  | MissingId => "Missing memento Id in arguments"
  | InvalidId s => "Invalid memento Id: " ++ s
  | Panic => ""
  end%string.

(** The text of [help]. *)
Definition usage : string := "
Usage: mementor [OPTIONS...] ACTION [arguments...]

ACTIONS
	add		Add new memento.
	fetch		Display a random memento.
	modify		Modify an existing memento.
	rm		Remove a memento.
	help		Display this help.
	list		List all mementos.
	version		Display the current version.

OPTIONS
".

(** [help]: [flag.PrintDefaults] writes to the standard error stream, which
    is not recorded. *)
Definition help : M unit := Print usage.

(** The result of a command as [main] receives it: [nil] or the error; a
    panic ends the process. *)
Definition attempt (c : M unit) : M (option error) :=
  fun w => match c w with
           | (inr _, w') => (inr None, w')
           | (inl Panic, w') => (inl Panic, w')
           | (inl e, w') => (inr (Some e), w')
           end.

Section CLI.

(** [rand.Intn] after [rand.Seed], as in [fetch]. *)
Variable Intn : Z -> nat -> nat.

(** [cfg.Format(time.Unix(t, 0))] of the timeago library, at the time of the
    call. *)
Variable Format : Z -> string.

(** [utf8.RuneCountInString], by which [%10s] measures its operand. *)
Variable RuneCountInString : string -> nat.

(** What [fmt.Printf] writes for a format text given no operands. *)
Variable Printf_no_operands : string -> string.

(** The three lines of [list]. *)
Definition header : string :=
  (esc ++ "[4;1m ID   Age         Pri  Description" ++ nl ++ esc ++ "[0m")%string.

Definition row (m : Memento) : string :=
  (fmt.verb_3d (Id m) ++ "   "
   ++ fmt.pad 10 (RuneCountInString (Format (Time m))) (Format (Time m)) ++ "  "
   ++ fmt.verb_3d (Priority m) ++ "  " ++ Msg m ++ nl)%string.

Definition total (count : nat) : string :=
  (esc ++ "[36;1m" ++ nl ++ fmt.verb_d (Z.of_nat count) ++ " mementos total."
   ++ nl ++ nl ++ esc ++ "[0m")%string.

(** [list]; the name [list] is the type of lists here. *)
Definition list_mementos : M unit :=
  mementos <- readMementos ;;
  Print header ;;;
  forM_ mementos (fun p => m <- load p ;; Print (row m)) ;;;
  Print (total (length mementos)).

(** [pr.error(err.Error())]: the message is the format text. *)
Definition print_error (e : error) : M unit :=
  Print (Printf_no_operands (esc ++ "[31;1m" ++ Error e ++ nl ++ esc ++ "[0m")%string).

(** [main]; the result of [fetch] is dropped. *)
Definition main (now : Z) (args : list string) : M unit :=
  let command := if (0 <? length args)%nat then nth 0 args "" else "fetch" in
  err <- (if (command =? "add")%string then attempt (add now args)
          else if (command =? "fetch")%string then
            _ <- attempt (fetch Intn now) ;; ret None
          else if (command =? "rm")%string || (command =? "del")%string then
            attempt (remove args)
          else if (command =? "modify")%string || (command =? "mod")%string then
            attempt (modify args)
          else if (command =? "list")%string || (command =? "ls")%string then
            attempt list_mementos
          else if (command =? "version")%string then Println version ;;; ret None
          else if (command =? "help")%string then help ;;; ret None
          else
            Print (esc ++ "[31;1mAction `" ++ command ++ "` is invalid"
                   ++ nl ++ esc ++ "[0m")%string ;;;
            help ;;; ret None) ;;
  match err with
  | Some e => print_error e
  | None => ret tt
  end.

End CLI.

(** *** More vocabulary *)

(** A sample clock-free instance of the parameters of [main]. *)
Definition sample_Intn (seed : Z) (k : nat) : nat := (Z.to_nat seed mod k)%nat.

(** * Properties *)

(** ** The library models on small inputs *)

Example Split_segments :
  strings.Split "priority:5:x" ":" = ["priority"; "5"; "x"] /\
  strings.Split "nocolon" ":" = ["nocolon"] /\
  strings.Split "" ":" = [""] /\
  strings.Split ":" ":" = [""; ""].
Proof. repeat split. Qed.

Example Join_words :
  strings.Join ["buy"; "milk"] " " = "buy milk" /\ strings.Join [] " " = "".
Proof. split; reflexivity. Qed.

Example MatchString_keys :
  regexp.MatchString regexp.rePriority "priority" = true /\
  regexp.MatchString regexp.rePriority "pr" = false /\
  regexp.MatchString regexp.reMsg "message" = true /\
  regexp.MatchString regexp.reMsg "id" = false.
Proof. repeat split. Qed.

Example ParseInt_texts :
  strconv.ParseInt "42" = Some 42 /\
  strconv.ParseInt "-7" = Some (-7) /\
  strconv.ParseInt "+7" = Some 7 /\
  strconv.ParseInt "" = None /\
  strconv.ParseInt "+" = None /\
  strconv.ParseInt "4x" = None /\
  strconv.ParseInt "9223372036854775807" = Some GoInt.maxInt /\
  strconv.ParseInt "9223372036854775808" = None /\
  strconv.ParseInt "-9223372036854775808" = Some GoInt.minInt /\
  strconv.ParseInt "-9223372036854775809" = None.
Proof. repeat split. Qed.

Example Search_boundary :
  sort.Search 5 (fun i => (3 <=? i)%nat) = 3%nat /\
  sort.Search 5 (fun _ => false) = 5%nat /\
  sort.Search 0 (fun _ => true) = 0%nat.
Proof. repeat split. Qed.

Example plus_wraps :
  GoInt.plus 5 1 = 6 /\ GoInt.plus GoInt.maxInt 1 = GoInt.minInt.
Proof. split; reflexivity. Qed.

(** ** How the primitives run *)

Lemma bind_ok {A B} (c : M A) (k : A -> M B) w a w' :
  c w = (inr a, w') -> bind c k w = k a w'.
Proof. intros H. unfold bind. now rewrite H. Qed.

Lemma mapM_new_run (ms : list Memento) w :
  mapM new ms w =
  (inr (seq (length (heap w)) (length ms)),
   {| file := file w; writes := writes w; heap := heap w ++ ms; stdout := stdout w |}).
Proof.
  revert w. induction ms as [|m ms IH]; intros [f n h o]; simpl.
  - unfold ret. now rewrite app_nil_r.
  - unfold bind at 1. unfold new at 1. simpl.
    unfold bind at 1. rewrite IH. simpl. unfold ret.
    rewrite length_app, <- app_assoc. simpl.
    now replace (length h + 1)%nat with (S (length h)) by lia.
Qed.

Lemma readMementos_run w :
  readMementos w =
  (inr (seq (length (heap w)) (length (file w))),
   {| file := file w; writes := writes w; heap := heap w ++ file w; stdout := stdout w |}).
Proof. unfold readMementos. apply mapM_new_run. Qed.

Lemma records_run ps ms w :
  points_to (heap w) ps ms -> records ps w = (inr ms, w).
Proof.
  unfold points_to, records. induction 1 as [|p m ps ms Hp _ IH]; simpl.
  - reflexivity.
  - unfold bind at 1. unfold load at 1. rewrite Hp.
    unfold bind at 1. now rewrite IH.
Qed.

Lemma points_to_fresh (h ms : list Memento) :
  points_to (h ++ ms) (seq (length h) (length ms)) ms.
Proof.
  unfold points_to. revert h. induction ms as [|m ms IH]; intros h; simpl.
  - constructor.
  - constructor.
    + rewrite lookup_app_r by lia. now rewrite Nat.sub_diag.
    + specialize (IH (h ++ [m])). rewrite length_app, <- app_assoc in IH.
      simpl in IH. now replace (S (length h)) with (length h + 1)%nat by lia.
Qed.

Lemma writeMementos_run ps ms w :
  points_to (heap w) ps ms ->
  writeMementos ps w =
  (inr tt, {| file := ms; writes := S (writes w); heap := heap w; stdout := stdout w |}).
Proof.
  intros H. unfold writeMementos.
  now rewrite (bind_ok _ _ _ _ _ (records_run _ _ _ H)).
Qed.

Lemma points_to_weaken h h' ps ms :
  points_to h ps ms -> points_to (h ++ h') ps ms.
Proof.
  unfold points_to. intros H. eapply Forall2_impl; [exact H|].
  intros p m Hp. now apply lookup_app_l_Some.
Qed.

Lemma add_run now args w :
  (2 <= length args)%nat ->
  add now args w =
  (inr tt,
   {| file := file w ++ [added now args (file w)];
      writes := S (writes w);
      heap := heap w ++ file w ++ [added now args (file w)];
      stdout := stdout w |}).
Proof.
  intros Hargs. unfold add.
  destruct (Nat.ltb_spec (length args) 2) as [?|_]; [lia|].
  rewrite (bind_ok _ _ _ _ _ (readMementos_run w)).
  rewrite length_seq.
  set (w1 := {| file := file w; writes := writes w;
                heap := heap w ++ file w; stdout := stdout w |}).
  assert (Hlast : (if (length (file w) <? 1)%nat then ret 0
                   else lastMemento <- index (seq (length (heap w)) (length (file w)))
                                         (length (file w) - 1) ;;
                        r <- load lastMemento ;; ret (Id r)) w1
                  = (inr (lastId (file w)), w1)).
  { unfold lastId. destruct (Nat.ltb_spec (length (file w)) 1) as [H0|H1].
    - destruct (file w); [reflexivity | simpl in H0; lia].
    - unfold index. rewrite lookup_seq_lt by lia. unfold ret at 1.
      unfold bind at 1. unfold bind at 1. unfold load. simpl.
      rewrite lookup_app_r by lia.
      replace (length (heap w) + (length (file w) - 1) - length (heap w))%nat
        with (length (file w) - 1)%nat by lia.
      rewrite last_lookup.
      replace (Init.Nat.pred (length (file w))) with (length (file w) - 1)%nat by lia.
      destruct (file w !! (length (file w) - 1)%nat) as [m|] eqn:E; [reflexivity|].
      apply lookup_ge_None in E. lia. }
  rewrite (bind_ok _ _ _ _ _ Hlast). fold (added now args (file w)).
  unfold bind, new. simpl.
  rewrite (writeMementos_run _ (file w ++ [added now args (file w)])).
  - simpl. now rewrite <- app_assoc.
  - simpl. unfold points_to. apply Forall2_app.
    + apply (points_to_weaken _ [_]), points_to_fresh.
    + constructor; [|constructor].
      rewrite lookup_app_r by (rewrite length_app; lia).
      rewrite length_app. now rewrite Nat.sub_diag.
Qed.

Lemma add_missing_message now args w :
  (length args < 2)%nat -> add now args w = (inl NoMessage, w).
Proof.
  intros H. unfold add.
  destruct (Nat.ltb_spec (length args) 2) as [_|?]; [reflexivity | lia].
Qed.

(** ** [sort.Search] and [findMementoById] *)

Lemma half_between (i j : nat) : (i < j)%nat -> (i <= (i + j) / 2 < j)%nat.
Proof.
  intros H. split.
  - apply Nat.div_le_lower_bound; lia.
  - apply Nat.Div0.div_lt_upper_bound; lia.
Qed.

(** On a predicate that, once true, stays true up to [j], the loop returns
    the boundary: false before it, true from it on. *)
Lemma Search_loop_spec f i j :
  (i <= j)%nat ->
  (forall a b, (i <= a <= b)%nat -> (b < j)%nat -> f a = true -> f b = true) ->
  (i <= sort.Search_loop f i j <= j)%nat /\
  (forall k, (i <= k < sort.Search_loop f i j)%nat -> f k = false) /\
  (forall k, (sort.Search_loop f i j <= k < j)%nat -> f k = true).
Proof.
  funelim (sort.Search_loop f i j); intros Hij Hmono; clear Heq; try clear Heqcall.
  - pose proof (half_between i j l) as Hh.
    set (h := ((i + j) / 2)%nat) in *.
    destruct (f h) eqn:Hfh; simpl.
    + destruct H0 as (Hb & Hlo & Hhi); [lia | |].
      { intros a b Hab Hb. apply Hmono; lia. }
      split; [lia|]. split; [exact Hlo|].
      intros k Hk. destruct (Nat.lt_ge_cases k h) as [Hkh|Hkh].
      * apply Hhi. lia.
      * apply (Hmono h k); [lia | lia | exact Hfh].
    + destruct H as (Hb & Hlo & Hhi); [lia | |].
      { intros a b Hab Hb. apply Hmono; lia. }
      split; [lia|]. split; [|exact Hhi].
      intros k Hk. destruct (Nat.lt_ge_cases h k) as [Hkh|Hkh].
      * apply Hlo. lia.
      * destruct (f k) eqn:Hfk; [|reflexivity].
        rewrite <- Hfh. symmetry. apply (Hmono k h); [lia | lia | exact Hfk].
  - split; [lia|]. split; intros k Hk; lia.
Qed.

Lemma StronglySorted_lookup_le (l : list Z) i j x y :
  StronglySorted Z.le l -> (i <= j)%nat ->
  l !! i = Some x -> l !! j = Some y -> x <= y.
Proof.
  intros Hs. revert i j. induction Hs as [|a l Hs IH Hall]; intros i j Hij Hi Hj.
  - now rewrite lookup_nil in Hi.
  - destruct i as [|i], j as [|j]; simpl in *; try lia.
    + injection Hi as <-. injection Hj as <-. lia.
    + injection Hi as <-. rewrite Forall_forall in Hall.
      apply Hall. eapply list_elem_of_lookup_2. exact Hj.
    + apply (IH i j); [lia | assumption | assumption].
Qed.

Lemma nth_lookup_Id (ms : list Memento) i m :
  ms !! i = Some m -> Id (nth i ms zeroMemento) = Id m.
Proof. intros H. now rewrite (nth_lookup_Some _ _ _ _ H). Qed.

Lemma find_sound ms id n :
  findMementoById ms id = (n, true) ->
  exists m, ms !! n = Some m /\ Id m = id.
Proof.
  unfold findMementoById.
  set (r := sort.Search _ _).
  destruct (Nat.ltb_spec r (length ms)) as [Hlt|Hge]; simpl; [|discriminate].
  destruct (Z.eqb_spec (Id (nth r ms zeroMemento)) id) as [He|Hne]; [|discriminate].
  intros [= <-]. destruct (lookup_lt_is_Some_2 ms r Hlt) as [m Hm].
  exists m. split; [exact Hm|]. now rewrite <- (nth_lookup_Id _ _ _ Hm).
Qed.

Lemma find_failed ms id n : findMementoById ms id = (n, false) -> n = 0%nat.
Proof.
  unfold findMementoById.
  destruct (_ && _); [discriminate | now intros [= <-]].
Qed.

Lemma find_absent ms id :
  ~ In id (ids ms) -> findMementoById ms id = (0%nat, false).
Proof.
  intros Habs. destruct (findMementoById ms id) as [n [|]] eqn:E.
  - destruct (find_sound _ _ _ E) as (m & Hm & Hid). exfalso. apply Habs.
    unfold ids. rewrite <- Hid. apply in_map.
    apply list_elem_of_In. eapply list_elem_of_lookup_2. exact Hm.
  - now rewrite (find_failed _ _ _ E).
Qed.

Lemma find_present ms id :
  sorted_by_id ms -> In id (ids ms) ->
  exists n, findMementoById ms id = (n, true).
Proof.
  intros Hs Hin.
  assert (Hss : StronglySorted Z.le (ids ms)).
  { apply Sorted_StronglySorted; [|exact Hs]. intros x y z; lia. }
  apply list_elem_of_In, list_elem_of_lookup_1 in Hin. destruct Hin as [k Hk].
  assert (Hklt : (k < length ms)%nat).
  { apply lookup_lt_Some in Hk. unfold ids in Hk. now rewrite length_map in Hk. }
  set (f := fun i => Id (nth i ms zeroMemento) >=? id).
  assert (Hnth : forall i, (i < length ms)%nat ->
                           ids ms !! i = Some (Id (nth i ms zeroMemento))).
  { intros i Hi. destruct (lookup_lt_is_Some_2 ms i Hi) as [m Hm].
    unfold ids. rewrite list_lookup_fmap, Hm. simpl.
    now rewrite (nth_lookup_Id _ _ _ Hm). }
  destruct (Search_loop_spec f 0 (length ms)) as (Hb & Hlo & Hhi); [lia | |].
  { intros a b Hab Hb. unfold f. rewrite !Z.geb_leb, !Z.leb_le. intros Ha.
    pose proof (StronglySorted_lookup_le _ a b _ _ Hss (proj2 Hab)
                  (Hnth a ltac:(lia)) (Hnth b Hb)). lia. }
  fold (sort.Search (length ms) f) in Hb, Hlo, Hhi.
  set (r := sort.Search (length ms) f) in *.
  assert (Hfk : f k = true).
  { unfold f. rewrite Z.geb_leb, Z.leb_le.
    rewrite (Hnth k Hklt) in Hk. injection Hk as Hk. lia. }
  assert (Hrk : (r <= k)%nat).
  { destruct (Nat.le_gt_cases r k) as [?|Hgt]; [assumption|].
    rewrite (Hlo k) in Hfk by lia. discriminate. }
  assert (Hfr : f r = true) by (apply Hhi; lia).
  exists r. unfold findMementoById. fold f. fold r.
  destruct (Nat.ltb_spec r (length ms)) as [_|?]; [|lia]. simpl.
  replace (Id (nth r ms zeroMemento) =? id) with true; [reflexivity|].
  symmetry. apply Z.eqb_eq.
  unfold f in Hfr. rewrite Z.geb_leb, Z.leb_le in Hfr.
  pose proof (StronglySorted_lookup_le _ r k _ _ Hss Hrk (Hnth r ltac:(lia)) Hk).
  lia.
Qed.

(** ** How the commands run *)

Lemma call_run {A} (r : error + A) w : call r w = (r, w).
Proof. reflexivity. Qed.

(** The common opening of [remove] and [modify]: parse the id, read the
    file, fetch the records for the lookup. *)
Ltac lookup_phase Hid w :=
  rewrite Hid;
  rewrite (bind_ok _ _ _ _ _ (call_run _ w));
  rewrite (bind_ok _ _ _ _ _ (readMementos_run w));
  rewrite (bind_ok _ _ _ _ _
             (records_run _ (file w)
                {| file := file w; writes := writes w;
                   heap := heap w ++ file w; stdout := stdout w |}
                (points_to_fresh (heap w) (file w)))).

Lemma remove_run_found args id n w :
  parseId args = inr id ->
  findMementoById (file w) id = (n, true) ->
  remove args w =
  (inr tt,
   {| file := take n (file w) ++ drop (n + 1) (file w);
      writes := S (writes w);
      heap := heap w ++ file w;
      stdout := stdout w |}).
Proof.
  intros Hid Hfind. unfold remove.
  lookup_phase Hid w.
  rewrite Hfind. simpl negb. cbv iota.
  destruct (find_sound _ _ _ Hfind) as (m & Hm & _).
  apply lookup_lt_Some in Hm.
  unfold slice. rewrite !length_seq.
  destruct (Nat.leb_spec 0 n) as [_|?]; [|lia].
  destruct (Nat.leb_spec n (length (file w))) as [_|?]; [|lia].
  destruct (Nat.leb_spec (n + 1) (length (file w))) as [_|?]; [|lia].
  rewrite Nat.leb_refl. simpl.
  unfold bind at 1. unfold ret at 1. unfold bind at 1. unfold ret at 1.
  rewrite Nat.sub_0_r.
  rewrite (take_ge (drop (n + 1) _)) by (rewrite length_drop, length_seq; lia).
  rewrite drop_0.
  rewrite (writeMementos_run _ (take n (file w) ++ drop (n + 1) (file w)));
    [reflexivity|].
  simpl. unfold points_to.
  apply Forall2_app; [apply Forall2_take | apply Forall2_drop];
    apply points_to_fresh.
Qed.

Lemma remove_run_missing args id n w :
  parseId args = inr id ->
  findMementoById (file w) id = (n, false) ->
  remove args w =
  (inl (DoesNotExist id),
   {| file := file w; writes := writes w;
      heap := heap w ++ file w; stdout := stdout w |}).
Proof.
  intros Hid Hfind. unfold remove.
  lookup_phase Hid w.
  now rewrite Hfind.
Qed.

Lemma remove_run_rejected args e w :
  parseId args = inl e -> remove args w = (inl e, w).
Proof. intros Hid. unfold remove. now rewrite Hid. Qed.

Lemma assign_run (g : Memento -> Memento) p m w :
  heap w !! p = Some m ->
  (r <- load p ;; store p (g r)) w =
  (inr tt,
   {| file := file w; writes := writes w;
      heap := <[p := g m]> (heap w); stdout := stdout w |}).
Proof.
  intros Hp. unfold bind, load, store. now rewrite Hp, Hp.
Qed.

(** Assigning a field of the [n]-th record through its pointer and writing
    the slice back stores the updated record in the [n]-th slot. *)
Lemma assign_write_run (g : Memento -> Memento) n m w :
  file w !! n = Some m ->
  ((r <- load (length (heap w) + n)%nat ;; store (length (heap w) + n)%nat (g r)) ;;;
   writeMementos (seq (length (heap w)) (length (file w))))
    {| file := file w; writes := writes w;
       heap := heap w ++ file w; stdout := stdout w |}
  = (inr tt,
     {| file := <[n := g m]> (file w);
        writes := S (writes w);
        heap := heap w ++ <[n := g m]> (file w);
        stdout := stdout w |}).
Proof.
  intros Hn.
  rewrite (bind_ok _ _ _ _ _
             (assign_run g (length (heap w) + n)%nat m
                {| file := file w; writes := writes w;
                   heap := heap w ++ file w; stdout := stdout w |}
                ltac:(simpl; rewrite lookup_app_r by lia;
                      now replace (length (heap w) + n - length (heap w))%nat
                        with n by lia))).
  simpl. rewrite insert_app_r_alt by lia.
  replace (length (heap w) + n - length (heap w))%nat with n by lia.
  rewrite (writeMementos_run _ (<[n := g m]> (file w))); [reflexivity|].
  simpl. rewrite <- (length_insert (file w) n (g m)).
  apply points_to_fresh.
Qed.

Lemma modify_run_priority args id n m field v rest value w :
  (3 <= length args)%nat ->
  parseId args = inr id ->
  findMementoById (file w) id = (n, true) ->
  file w !! n = Some m ->
  strings.Split (nth 2 args "") ":" = field :: v :: rest ->
  regexp.MatchString regexp.rePriority field = true ->
  strconv.ParseInt v = Some value ->
  modify args w =
  (inr tt,
   {| file := <[n := with_Priority m value]> (file w);
      writes := S (writes w);
      heap := heap w ++ <[n := with_Priority m value]> (file w);
      stdout := stdout w |}).
Proof.
  intros Hargs Hid Hfind Hm Hsplit Hfield Hv. unfold modify.
  destruct (Nat.ltb_spec (length args) 3) as [?|_]; [lia|].
  lookup_phase Hid w.
  rewrite Hfind. cbn [negb].
  unfold index. rewrite lookup_seq_lt by (apply lookup_lt_Some in Hm; lia).
  unfold bind at 1. unfold ret at 1.
  rewrite Hsplit. cbn [nth length Nat.ltb Nat.leb].
  rewrite Hfield, Hv. unfold set_Priority.
  apply (assign_write_run (fun r => with_Priority r value) n m w Hm).
Qed.

Lemma modify_run_msg args id n m field v rest w :
  (3 <= length args)%nat ->
  parseId args = inr id ->
  findMementoById (file w) id = (n, true) ->
  file w !! n = Some m ->
  strings.Split (nth 2 args "") ":" = field :: v :: rest ->
  regexp.MatchString regexp.rePriority field = false ->
  regexp.MatchString regexp.reMsg field = true ->
  modify args w =
  (inr tt,
   {| file := <[n := with_Msg m field]> (file w);
      writes := S (writes w);
      heap := heap w ++ <[n := with_Msg m field]> (file w);
      stdout := stdout w |}).
Proof.
  intros Hargs Hid Hfind Hm Hsplit Hpri Hmsg. unfold modify.
  destruct (Nat.ltb_spec (length args) 3) as [?|_]; [lia|].
  lookup_phase Hid w.
  rewrite Hfind. cbn [negb].
  unfold index. rewrite lookup_seq_lt by (apply lookup_lt_Some in Hm; lia).
  unfold bind at 1. unfold ret at 1.
  rewrite Hsplit. cbn [nth length Nat.ltb Nat.leb].
  rewrite Hpri, Hmsg. unfold set_Msg.
  apply (assign_write_run (fun r => with_Msg r field) n m w Hm).
Qed.

Lemma modify_run_missing args id n w :
  (3 <= length args)%nat ->
  parseId args = inr id ->
  findMementoById (file w) id = (n, false) ->
  modify args w =
  (inl (DoesNotExist id),
   {| file := file w; writes := writes w;
      heap := heap w ++ file w; stdout := stdout w |}).
Proof.
  intros Hargs Hid Hfind. unfold modify.
  destruct (Nat.ltb_spec (length args) 3) as [?|_]; [lia|].
  lookup_phase Hid w.
  now rewrite Hfind.
Qed.

(** ** [strings.Split] and [strconv.ParseInt] *)

Lemma Split_colon_free s : colon_free s -> strings.Split s ":" = [s].
Proof.
  unfold colon_free. induction s as [|c s IH]; simpl; intros H; [reflexivity|].
  destruct (Ascii.eqb_spec c ":") as [->|_]; [exfalso; apply H; now left|].
  rewrite IH by (intros Hin; apply H; now right). reflexivity.
Qed.

Lemma Split_at_colon a b :
  colon_free a ->
  strings.Split (a ++ String ":" b) ":" = a :: strings.Split b ":".
Proof.
  unfold colon_free. induction a as [|c a IH]; simpl; intros H; [reflexivity|].
  destruct (Ascii.eqb_spec c ":") as [->|_]; [exfalso; apply H; now left|].
  rewrite IH by (intros Hin; apply H; now right). reflexivity.
Qed.

Lemma Split_field_value field v :
  colon_free field -> colon_free v ->
  strings.Split (field ++ String ":" v) ":" = [field; v].
Proof.
  intros Hf Hv. now rewrite Split_at_colon, Split_colon_free.
Qed.

Lemma Split_field_value_tail field v tail :
  colon_free field -> colon_free v ->
  exists rest,
    strings.Split (field ++ String ":" (v ++ String ":" tail)) ":"
    = field :: v :: rest.
Proof.
  intros Hf Hv. rewrite Split_at_colon, Split_at_colon by assumption.
  eauto.
Qed.

Lemma digit_not_colon c d : strconv.digit c = Some d -> c <> ":"%char.
Proof. intros H ->. discriminate. Qed.

Lemma digits_colon_free s acc n : strconv.digits s acc = Some n -> colon_free s.
Proof.
  unfold colon_free. revert acc. induction s as [|c s IH]; simpl; intros acc H.
  - tauto.
  - destruct (strconv.digit c) as [d|] eqn:Hd; [|discriminate].
    intros [Hc|Hin].
    + now apply (digit_not_colon _ _ Hd).
    + exact (IH _ H Hin).
Qed.

(** A text [ParseInt] accepts holds no colon. *)
Lemma ParseInt_colon_free s n : strconv.ParseInt s = Some n -> colon_free s.
Proof.
  unfold strconv.ParseInt. destruct s as [|c s]; [discriminate|].
  destruct (strconv.ParseUint _) as [un|] eqn:Hun; [|discriminate]. intros _.
  unfold strconv.ParseUint in Hun.
  destruct (Ascii.eqb_spec c "+") as [->|Hplus];
    [|destruct (Ascii.eqb_spec c "-") as [->|Hminus]]; cbn [orb] in Hun.
  - destruct s; [discriminate|]. apply digits_colon_free in Hun.
    unfold colon_free in *. intros [?|?]; [discriminate|tauto].
  - destruct s; [discriminate|]. apply digits_colon_free in Hun.
    unfold colon_free in *. intros [?|?]; [discriminate|tauto].
  - now apply digits_colon_free in Hun.
Qed.

Lemma parseId_nonneg args id : parseId args = inr id -> 0 <= id.
Proof.
  unfold parseId. destruct (_ <? _)%nat; [discriminate|].
  destruct (strconv.ParseInt _) as [z|]; [|discriminate].
  destruct (Z.ltb_spec z 0); [discriminate|]. intros [= <-]. lia.
Qed.

(** ** The lookup (C4) *)

(** C4. On a sequence of mementos sorted ascending by id, [findMementoById]
    returns [(n, true)] exactly when some record has the id, the record at
    index [n] then has that id, and it returns [(0, false)] otherwise. *)
Theorem findMementoById_correct (ms : list Memento) (id : Z) :
  sorted_by_id ms ->
  (In id (ids ms) <-> exists n, findMementoById ms id = (n, true)) /\
  (forall n, findMementoById ms id = (n, true) ->
             exists m, ms !! n = Some m /\ Id m = id) /\
  (~ In id (ids ms) -> findMementoById ms id = (0%nat, false)).
Proof.
  intros Hs. split; [split|split].
  - now apply find_present.
  - intros [n Hn]. destruct (find_sound _ _ _ Hn) as (m & Hm & <-).
    unfold ids. apply in_map. apply list_elem_of_In.
    eapply list_elem_of_lookup_2. exact Hm.
  - apply find_sound.
  - apply find_absent.
Qed.

Lemma findMementoById_correct_witness :
  sorted_by_id sample /\
  ((In 5 (ids sample) <-> exists n, findMementoById sample 5 = (n, true)) /\
   (forall n, findMementoById sample 5 = (n, true) ->
              exists m, sample !! n = Some m /\ Id m = 5) /\
   (~ In 5 (ids sample) -> findMementoById sample 5 = (0%nat, false))).
Proof.
  split.
  - unfold sorted_by_id, sample. simpl. repeat constructor; lia.
  - apply (findMementoById_correct sample 5).
    unfold sorted_by_id, sample. simpl. repeat constructor; lia.
Defined.

(** ** Commands on an id that is not there (C5) *)

(** C5. When no record has the id, [remove] and [modify] return the
    does-not-exist error, the file keeps its content and is not written. *)
Theorem absent_id_not_found (rm_args mod_args : list string) (id : Z) (w : world) :
  ~ In id (ids (file w)) ->
  parseId rm_args = inr id ->
  parseId mod_args = inr id ->
  (3 <= length mod_args)%nat ->
  (exists w', remove rm_args w = (inl (DoesNotExist id), w') /\
              file w' = file w /\ writes w' = writes w) /\
  (exists w', modify mod_args w = (inl (DoesNotExist id), w') /\
              file w' = file w /\ writes w' = writes w).
Proof.
  intros Habs Hrm Hmod Hargs. pose proof (find_absent _ _ Habs) as Hfind. split.
  - eexists. split; [apply (remove_run_missing _ _ _ _ Hrm Hfind)|].
    split; reflexivity.
  - eexists. split; [apply (modify_run_missing _ _ _ _ Hargs Hmod Hfind)|].
    split; reflexivity.
Qed.

Lemma absent_id_not_found_witness :
  ~ In 4 (ids (file (boot sample))) /\
  (exists w', remove ["rm"; "4"] (boot sample) = (inl (DoesNotExist 4), w') /\
              file w' = file (boot sample) /\ writes w' = writes (boot sample)) /\
  (exists w', modify ["mod"; "4"; "priority:2"] (boot sample)
              = (inl (DoesNotExist 4), w') /\
              file w' = file (boot sample) /\ writes w' = writes (boot sample)).
Proof.
  split.
  - simpl. intros [H|[H|[H|[]]]]; discriminate H.
  - apply (absent_id_not_found ["rm"; "4"] ["mod"; "4"; "priority:2"] 4 (boot sample)).
    + simpl. intros [H|[H|[H|[]]]]; discriminate H.
    + reflexivity.
    + reflexivity.
    + simpl. lia.
Defined.

(** ** Modifying the message (C1) *)

(** C1 at a failing input.  [mementor mod 2 "message:call dad"] on the
    sample store: the command succeeds and writes the file once, record 2
    keeps its id, time and priority, and its message is now the field key
    [message], not the supplied value [call dad]. *)
Theorem modify_message_stores_field_key :
  strings.Split "message:call dad" ":" = ["message"; "call dad"] /\
  fst (modify ["mod"; "2"; "message:call dad"] (boot sample)) = inr tt /\
  writes (snd (modify ["mod"; "2"; "message:call dad"] (boot sample))) = 1%nat /\
  file (snd (modify ["mod"; "2"; "message:call dad"] (boot sample))) =
  [ {| Id := 1; Msg := "buy milk"; Time := 1700000000; Priority := 1 |};
    {| Id := 2; Msg := "message"; Time := 1700000060; Priority := 1 |};
    {| Id := 5; Msg := "water the plants"; Time := 1700000120; Priority := 3 |} ] /\
  "message" <> "call dad".
Proof.
  split; [reflexivity|]. split; [vm_compute; reflexivity|].
  split; [vm_compute; reflexivity|]. split; [vm_compute; reflexivity|].
  discriminate.
Qed.

(** ** Modifying the priority (C7) *)

(** C7. On a store sorted by id that holds the id, [modify] with the
    argument [field:v], where [field] is a priority key and [v] a number,
    succeeds; the record the lookup finds gets the priority [v] and keeps
    its id, message and creation time; every other slot of the file is as
    before. *)
Theorem modify_priority_frame
    (args : list string) (id : Z) (field v : string) (value : Z) (w : world) :
  sorted_by_id (file w) ->
  In id (ids (file w)) ->
  (3 <= length args)%nat ->
  parseId args = inr id ->
  nth 2 args "" = (field ++ String ":" v)%string ->
  colon_free field ->
  regexp.MatchString regexp.rePriority field = true ->
  strconv.ParseInt v = Some value ->
  exists n m m' w',
    modify args w = (inr tt, w') /\
    file w !! n = Some m /\ Id m = id /\
    file w' !! n = Some m' /\
    Priority m' = value /\ Msg m' = Msg m /\ Id m' = Id m /\ Time m' = Time m /\
    (forall j, j <> n -> file w' !! j = file w !! j) /\
    length (file w') = length (file w).
Proof.
  intros Hs Hin Hargs Hid Harg Hfield Hpri Hv.
  destruct (find_present _ _ Hs Hin) as [n Hfind].
  destruct (find_sound _ _ _ Hfind) as (m & Hm & Hidm).
  assert (Hsplit : strings.Split (nth 2 args "") ":" = [field; v]).
  { rewrite Harg. apply Split_field_value; [assumption|].
    now apply (ParseInt_colon_free _ value). }
  exists n, m, (with_Priority m value). eexists.
  split; [apply (modify_run_priority _ _ _ _ _ _ _ _ _ Hargs Hid Hfind Hm Hsplit Hpri Hv)|].
  cbn [file]. repeat split; try assumption.
  - apply list_lookup_insert_eq. now apply lookup_lt_Some in Hm.
  - intros j Hj. now apply list_lookup_insert_ne.
  - apply length_insert.
Qed.

Lemma modify_priority_frame_witness :
  exists n m m' w',
    modify ["mod"; "2"; "priority:5"] (boot sample) = (inr tt, w') /\
    file (boot sample) !! n = Some m /\ Id m = 2 /\
    file w' !! n = Some m' /\
    Priority m' = 5 /\ Msg m' = Msg m /\ Id m' = Id m /\ Time m' = Time m /\
    (forall j, j <> n -> file w' !! j = file (boot sample) !! j) /\
    length (file w') = length (file (boot sample)).
Proof.
  apply (modify_priority_frame ["mod"; "2"; "priority:5"] 2 "priority" "5" 5
           (boot sample)).
  - unfold sorted_by_id. simpl. repeat constructor; lia.
  - simpl. right. left. reflexivity.
  - simpl. lia.
  - reflexivity.
  - reflexivity.
  - unfold colon_free. simpl. intros H.
    repeat (destruct H as [H|H]; [discriminate H|]). exact H.
  - reflexivity.
  - reflexivity.
Defined.

(** ** Colons in the modification (C9) *)

(** C9 as stated fails on a message key: with [m:call dad:today] the text
    between the first and the second colon is [call dad], and the message
    stored is [m]. *)
Lemma message_key_ignores_second_segment :
  strings.Split "m:call dad:today" ":" = ["m"; "call dad"; "today"] /\
  exists m,
    file (snd (modify ["mod"; "2"; "m:call dad:today"] (boot sample))) !! 1%nat
    = Some m /\
    Msg m = "m" /\ Msg m <> "call dad".
Proof.
  split; [reflexivity|]. eexists. split; [vm_compute; reflexivity|].
  split; [reflexivity | discriminate].
Qed.

(** C9, amended.  The argument [field:v:tail] is treated exactly as
    [field:v]: the text after the second colon is never read.  For a
    priority key the new priority is the number written between the first
    and the second colon. *)
Theorem modify_discards_after_second_colon
    (cmd idtext field v tail : string) (more : list string) (w : world) :
  colon_free field ->
  colon_free v ->
  modify (cmd :: idtext :: (field ++ String ":" (v ++ String ":" tail))%string :: more) w
  = modify (cmd :: idtext :: (field ++ String ":" v)%string :: more) w /\
  (forall id n m value,
      parseId (cmd :: idtext :: (field ++ String ":" (v ++ String ":" tail))%string :: more)
      = inr id ->
      findMementoById (file w) id = (n, true) ->
      file w !! n = Some m ->
      regexp.MatchString regexp.rePriority field = true ->
      strconv.ParseInt v = Some value ->
      file (snd (modify (cmd :: idtext ::
                           (field ++ String ":" (v ++ String ":" tail))%string :: more) w))
      = <[n := with_Priority m value]> (file w)).
Proof.
  intros Hf Hv. split.
  - unfold modify. cbn [nth].
    rewrite !Split_at_colon by assumption.
    rewrite (Split_colon_free v Hv).
    reflexivity.
  - intros id n m value Hid Hfind Hm Hpri Hval.
    destruct (Split_field_value_tail field v tail Hf Hv) as [rest Hsplit].
    erewrite modify_run_priority; [reflexivity | | exact Hid | exact Hfind | exact Hm
                                   | exact Hsplit | exact Hpri | exact Hval].
    simpl. lia.
Qed.

Lemma modify_discards_after_second_colon_witness :
  modify ["mod"; "2"; ("priority" ++ String ":" ("7" ++ String ":" "today"))%string] (boot sample)
  = modify ["mod"; "2"; ("priority" ++ String ":" "7")%string] (boot sample) /\
  (forall id n m value,
      parseId ["mod"; "2"; ("priority" ++ String ":" ("7" ++ String ":" "today"))%string]
      = inr id ->
      findMementoById (file (boot sample)) id = (n, true) ->
      file (boot sample) !! n = Some m ->
      regexp.MatchString regexp.rePriority "priority" = true ->
      strconv.ParseInt "7" = Some value ->
      file (snd (modify ["mod"; "2";
                         ("priority" ++ String ":" ("7" ++ String ":" "today"))%string]
                   (boot sample)))
      = <[n := with_Priority m value]> (file (boot sample))).
Proof.
  apply (modify_discards_after_second_colon "mod" "2" "priority" "7" "today" []
           (boot sample)).
  - unfold colon_free. simpl. intros H.
    repeat (destruct H as [H|H]; [discriminate H|]). exact H.
  - unfold colon_free. simpl. intros H.
    repeat (destruct H as [H|H]; [discriminate H|]). exact H.
Defined.

(** ** Adding without a message (C8) *)

(** C8 as stated fails on an empty message text: [mementor add ""] returns
    no error and appends a record whose message is empty. *)
Lemma add_accepts_empty_message :
  strings.Join (drop 1 ["add"; ""]) " " = "" /\
  add 1700000200 ["add"; ""] (boot sample) =
  (inr tt,
   {| file := sample ++ [ {| Id := 6; Msg := ""; Time := 1700000200; Priority := 1 |} ];
      writes := 1;
      heap := sample ++ [ {| Id := 6; Msg := ""; Time := 1700000200; Priority := 1 |} ];
      stdout := [] |}).
Proof. split; vm_compute; reflexivity. Qed.

(** C8, amended.  [add] fails when the message argument is missing (fewer
    than two arguments); it then returns before reading the file, so
    nothing is appended or written. *)
Theorem add_without_message (now : Z) (args : list string) (w : world) :
  (length args < 2)%nat ->
  add now args w = (inl NoMessage, w).
Proof.
  apply add_missing_message.
Qed.

Lemma add_without_message_witness :
  (length ["add"] < 2)%nat /\
  add 1700000200 ["add"] (boot sample) = (inl NoMessage, boot sample).
Proof.
  split; [simpl; lia|].
  apply (add_without_message 1700000200 ["add"] (boot sample)). simpl. lia.
Defined.

(** ** Fetching (C10) *)

Section FetchRuns.

Variable Intn : Z -> nat -> nat.

(** What [rand.Intn] promises: a value in [[0, n)] for every [0 < n]. *)
Hypothesis Intn_below : forall seed n, (0 < n)%nat -> (Intn seed n < n)%nat.

(** C10. On a non-empty store the index [fetch] draws is below the length
    of the store, the indexing does not panic, and the line printed is the
    message of the record at that index; the file is left alone. *)
Theorem fetch_prints_stored_message (now : Z) (w : world) :
  file w <> [] ->
  exists n m w',
    n = Intn now (length (file w)) /\
    (n < length (file w))%nat /\
    file w !! n = Some m /\
    fetch Intn now w = (inr tt, w') /\
    stdout w' = stdout w ++ [Msg m] /\
    file w' = file w /\ writes w' = writes w.
Proof.
  intros Hne.
  assert (Hlen : (0 < length (file w))%nat).
  { destruct (file w); [contradiction | simpl; lia]. }
  pose proof (Intn_below now _ Hlen) as Hn.
  destruct (lookup_lt_is_Some_2 (file w) _ Hn) as [m Hm].
  exists (Intn now (length (file w))), m,
    {| file := file w; writes := writes w;
       heap := heap w ++ file w; stdout := stdout w ++ [Msg m] |}.
  split; [reflexivity|]. split; [exact Hn|]. split; [exact Hm|].
  split; [|repeat split].
  - unfold fetch.
    rewrite (bind_ok _ _ _ _ _ (readMementos_run w)).
    rewrite length_seq.
    destruct (Nat.ltb_spec (length (file w)) 1) as [?|_]; [lia|].
    unfold index. rewrite lookup_seq_lt by exact Hn.
    unfold bind at 1. unfold ret at 1.
    unfold bind, load. cbn [heap].
    rewrite lookup_app_r by lia.
    replace (length (heap w) + Intn now (length (file w)) - length (heap w))%nat
      with (Intn now (length (file w))) by lia.
    rewrite Hm. reflexivity.
Qed.

End FetchRuns.

Lemma fetch_prints_stored_message_witness :
  exists n m w',
    n = (fun (seed : Z) (k : nat) => (Z.to_nat seed mod k)%nat)
          1700000200 (length (file (boot sample))) /\
    (n < length (file (boot sample)))%nat /\
    file (boot sample) !! n = Some m /\
    fetch (fun (seed : Z) (k : nat) => (Z.to_nat seed mod k)%nat) 1700000200
      (boot sample) = (inr tt, w') /\
    stdout w' = stdout (boot sample) ++ [Msg m] /\
    file w' = file (boot sample) /\ writes w' = writes (boot sample).
Proof.
  apply (fetch_prints_stored_message
           (fun (seed : Z) (k : nat) => (Z.to_nat seed mod k)%nat)).
  - intros seed n Hn. apply Nat.mod_upper_bound. lia.
  - discriminate.
Defined.

(** ** Sequences of commands *)

Lemma wrap_in_range z : GoInt.in_range z -> GoInt.wrap z = z.
Proof.
  unfold GoInt.in_range, GoInt.wrap, GoInt.minInt, GoInt.maxInt, GoInt.intSize.
  intros H. rewrite Z.mod_small; lia.
Qed.

Lemma ascending_strong ms : ascending ms <-> StronglySorted Z.lt (ids ms).
Proof.
  unfold ascending. split.
  - apply Sorted_StronglySorted. intros x y z. lia.
  - apply StronglySorted_Sorted.
Qed.

Lemma ascending_sorted ms : ascending ms -> sorted_by_id ms.
Proof.
  unfold ascending, sorted_by_id. induction 1 as [|x l _ IH Hhd]; constructor.
  - exact IH.
  - destruct Hhd; constructor. lia.
Qed.

Lemma ascending_NoDup ms : ascending ms -> NoDup (ids ms).
Proof.
  rewrite ascending_strong. induction 1 as [|x l _ IH Hall]; constructor.
  - intros Hin. rewrite Forall_forall in Hall. specialize (Hall _ Hin). lia.
  - exact IH.
Qed.

Lemma lastId_snoc ms m : lastId (ms ++ [m]) = Id m.
Proof. unfold lastId. now rewrite last_snoc. Qed.

Lemma lastId_in ms : ms <> [] -> In (lastId ms) (ids ms).
Proof.
  intros Hne. unfold lastId. destruct (last ms) as [m|] eqn:E.
  - apply last_Some in E. destruct E as [l ->].
    unfold ids. rewrite map_app. apply in_or_app. right. now left.
  - now apply last_None in E.
Qed.

(** In a store sorted by id the last id is the largest. *)
Lemma lastId_largest ms x : sorted_by_id ms -> In x (ids ms) -> x <= lastId ms.
Proof.
  intros Hs Hin.
  assert (Hss : StronglySorted Z.le (ids ms)).
  { apply Sorted_StronglySorted; [|exact Hs]. intros a b c; lia. }
  unfold lastId. destruct (last ms) as [m|] eqn:E.
  - apply last_Some in E. destruct E as [l ->].
    unfold ids in *. rewrite map_app in *. simpl in *.
    apply in_app_or in Hin. destruct Hin as [Hin|[<-|[]]]; [|lia].
    apply StronglySorted_app in Hss. destruct Hss as (Hcross & _ & _).
    apply Hcross; [now apply list_elem_of_In | left].
  - apply last_None in E. subst ms. destruct Hin.
Qed.

Lemma is_max_lastId ms x : sorted_by_id ms -> is_max x ms -> lastId ms = x.
Proof.
  intros Hs [Hin Hall].
  pose proof (lastId_largest ms x Hs Hin).
  assert (Hne : ms <> []) by (intros ->; destruct Hin).
  pose proof (lastId_in ms Hne) as Hl.
  rewrite Forall_forall in Hall. apply list_elem_of_In in Hl.
  specialize (Hall _ Hl). lia.
Qed.

Lemma ascending_snoc ms m :
  ascending ms -> lastId ms < Id m -> ascending (ms ++ [m]).
Proof.
  intros Ha Hlt. pose proof (ascending_sorted _ Ha) as Hs.
  rewrite ascending_strong in *. unfold ids in *. rewrite map_app.
  apply StronglySorted_app. split; [|split].
  - intros x1 x2 H1 H2. apply list_elem_of_In in H1.
    simpl in H2. apply list_elem_of_In in H2. destruct H2 as [<-|[]].
    pose proof (lastId_largest ms x1 Hs H1). lia.
  - exact Ha.
  - simpl. repeat constructor.
Qed.

Lemma ids_without n ms :
  ids (take n ms ++ drop (n + 1) ms) = take n (ids ms) ++ drop (n + 1) (ids ms).
Proof.
  unfold ids. rewrite map_app.
  change (map Id) with (fmap (M := list) Id).
  now rewrite fmap_take, fmap_drop.
Qed.

Lemma in_ids_without n ms x :
  In x (ids (take n ms ++ drop (n + 1) ms)) -> In x (ids ms).
Proof.
  rewrite ids_without. intros H. apply in_app_or in H.
  apply list_elem_of_In. destruct H as [H|H]; apply list_elem_of_In in H.
  - exact (subseteq_take _ _ _ H).
  - exact (subseteq_drop _ _ _ H).
Qed.

Lemma ascending_without n ms :
  ascending ms -> ascending (take n ms ++ drop (n + 1) ms).
Proof.
  rewrite !ascending_strong, ids_without. generalize (ids ms). clear ms.
  intros l Hs. rewrite <- (take_drop n l) in Hs.
  apply StronglySorted_app in Hs. destruct Hs as (Hcross & Hl & Hr).
  apply StronglySorted_app. split; [|split].
  - intros x1 x2 H1 H2. apply Hcross; [exact H1|].
    rewrite <- drop_drop in H2. exact (subseteq_drop _ _ _ H2).
  - exact Hl.
  - rewrite <- drop_drop.
    generalize dependent (drop n l). intros k _ Hk.
    destruct k as [|a k]; simpl; [constructor|].
    rewrite drop_0. now inversion Hk.
Qed.

Lemma invoke_add now args stored :
  invoke (add now args) stored =
  if (length args <? 2)%nat then stored else stored ++ [added now args stored].
Proof.
  unfold invoke. destruct (Nat.ltb_spec (length args) 2) as [H|H].
  - now rewrite add_missing_message.
  - now rewrite add_run.
Qed.

Lemma invoke_remove args stored :
  invoke (remove args) stored =
  match parseId args with
  | inl _ => stored
  | inr id =>
      match findMementoById stored id with
      | (n, true) => take n stored ++ drop (n + 1) stored
      | (_, false) => stored
      end
  end.
Proof.
  unfold invoke. destruct (parseId args) as [e|id] eqn:Hid.
  - now rewrite (remove_run_rejected _ _ _ Hid).
  - destruct (findMementoById stored id) as [n [|]] eqn:Hfind.
    + now rewrite (remove_run_found _ _ _ (boot stored) Hid Hfind).
    + now rewrite (remove_run_missing _ _ _ (boot stored) Hid Hfind).
Qed.

Lemma added_Id now args ms :
  GoInt.minInt <= lastId ms + 1 <= GoInt.maxInt ->
  Id (added now args ms) = lastId ms + 1.
Proof. intros H. simpl. unfold GoInt.plus. now apply wrap_in_range. Qed.

Lemma lastId_in_range ms :
  Forall GoInt.in_range (ids ms) -> GoInt.in_range (lastId ms).
Proof.
  intros Hall. destruct ms as [|m ms].
  - unfold lastId, GoInt.in_range. simpl. vm_compute. split; discriminate.
  - rewrite Forall_forall in Hall. apply Hall, list_elem_of_In, lastId_in.
    discriminate.
Qed.

(** Removing a record a [remove] command can name never raises the last id. *)
Lemma lastId_without n ms m :
  sorted_by_id ms -> ms !! n = Some m -> 0 <= Id m ->
  lastId (take n ms ++ drop (n + 1) ms) <= lastId ms.
Proof.
  intros Hs Hm Hid.
  destruct (take n ms ++ drop (n + 1) ms) as [|a l] eqn:E.
  - apply app_eq_nil in E. destruct E as [Et Ed].
    assert (Hin : In (Id m) (ids ms)).
    { unfold ids. apply in_map, list_elem_of_In.
      eapply list_elem_of_lookup_2. exact Hm. }
    pose proof (lastId_largest ms _ Hs Hin). unfold lastId at 1. simpl. lia.
  - rewrite <- E. apply lastId_largest; [exact Hs|].
    apply (in_ids_without n). apply lastId_in. rewrite E. discriminate.
Qed.

(** ** The record [add] appends (C3) *)

(** C3 as stated fails when the largest id is the largest [int]: the id of
    the new record wraps around to the smallest [int]. *)
Lemma add_wraps_at_maxInt :
  is_max GoInt.maxInt full /\
  exists m,
    file (snd (add 1700000200 ["add"; "one"; "more"] (boot full))) = full ++ [m] /\
    Id m = GoInt.minInt /\
    Id m <> GoInt.maxInt + 1.
Proof.
  split.
  - split; [now left | repeat constructor; simpl; lia].
  - eexists. split; [vm_compute; reflexivity|].
    split; [reflexivity | discriminate].
Qed.

(** C3, amended.  [add] with a non-empty message appends one record and
    writes the file.  The record has the message, the current time and
    priority 1; its id is the id of the last record plus 1 in [int]
    arithmetic, 1 on an empty store, and the largest id plus 1 when the
    store is sorted by id and the largest id is below the largest [int]. *)
Theorem add_appends (now : Z) (args : list string) (w : world) :
  strings.Join (drop 1 args) " " <> "" ->
  exists m w',
    add now args w = (inr tt, w') /\
    file w' = file w ++ [m] /\ writes w' = S (writes w) /\
    Msg m = strings.Join (drop 1 args) " " /\ Time m = now /\ Priority m = 1 /\
    Id m = GoInt.plus (lastId (file w)) 1 /\
    (file w = [] -> Id m = 1) /\
    (forall x, sorted_by_id (file w) -> is_max x (file w) ->
               GoInt.minInt <= x < GoInt.maxInt -> Id m = x + 1).
Proof.
  intros Hmsg.
  assert (Hargs : (2 <= length args)%nat).
  { destruct args as [|a [|b args]]; simpl in *; try contradiction; lia. }
  exists (added now args (file w)). eexists.
  split; [apply (add_run now args w Hargs)|].
  cbn [file writes]. repeat split.
  - intros ->. reflexivity.
  - intros x Hs Hmax Hx. rewrite added_Id; rewrite (is_max_lastId _ _ Hs Hmax); lia.
Qed.

Lemma add_appends_witness :
  strings.Join (drop 1 ["add"; "feed"; "the"; "cat"]) " " <> "" /\
  exists m w',
    add 1700000200 ["add"; "feed"; "the"; "cat"] (boot sample) = (inr tt, w') /\
    file w' = file (boot sample) ++ [m] /\ writes w' = S (writes (boot sample)) /\
    Msg m = strings.Join (drop 1 ["add"; "feed"; "the"; "cat"]) " " /\
    Time m = 1700000200 /\ Priority m = 1 /\
    Id m = GoInt.plus (lastId (file (boot sample))) 1 /\
    (file (boot sample) = [] -> Id m = 1) /\
    (forall x, sorted_by_id (file (boot sample)) -> is_max x (file (boot sample)) ->
               GoInt.minInt <= x < GoInt.maxInt -> Id m = x + 1).
Proof.
  split; [discriminate|].
  apply (add_appends 1700000200 ["add"; "feed"; "the"; "cat"] (boot sample)).
  discriminate.
Defined.

(** ** The order of the ids (C2) *)

(** C2 as stated fails on [full]: its ids are strictly ascending, and after
    one [Add] they are not. *)
Lemma add_breaks_order_at_maxInt :
  ascending full /\
  ~ ascending (run [Add 1700000200 ["add"; "one"; "more"]] full).
Proof.
  split.
  - unfold ascending, full. simpl. repeat constructor.
  - intros H. apply ascending_strong in H.
    vm_compute in H. inversion H as [|? ? _ Hall]. subst.
    inversion Hall as [|? ? Hlt _]. discriminate Hlt.
Qed.

Lemma perform_keeps_order o ms :
  ascending ms -> Forall GoInt.in_range (ids ms) ->
  lastId ms + Z.of_nat (adds [o]) <= GoInt.maxInt ->
  ascending (invoke (perform o) ms) /\
  Forall GoInt.in_range (ids (invoke (perform o) ms)) /\
  lastId (invoke (perform o) ms) <= lastId ms + Z.of_nat (adds [o]).
Proof.
  intros Ha Hr Hb. pose proof (lastId_in_range _ Hr) as Hl.
  destruct o as [now args|args]; cbn [perform adds] in *.
  - rewrite invoke_add. destruct (length args <? 2)%nat.
    + repeat split; [assumption | assumption | lia].
    + assert (Hid : Id (added now args ms) = lastId ms + 1).
      { apply added_Id. unfold GoInt.in_range in Hl. lia. }
      repeat split.
      * apply ascending_snoc; [assumption | lia].
      * unfold ids. rewrite map_app. apply Forall_app. split; [exact Hr|].
        repeat constructor; cbn [map]; rewrite Hid;
          unfold GoInt.in_range in Hl; lia.
      * rewrite lastId_snoc. lia.
  - rewrite invoke_remove. destruct (parseId args) as [e|id] eqn:Hid.
    + repeat split; [assumption | assumption | lia].
    + destruct (findMementoById ms id) as [n [|]] eqn:Hfind.
      * destruct (find_sound _ _ _ Hfind) as (m & Hm & Hidm).
        pose proof (parseId_nonneg _ _ Hid) as Hnn.
        repeat split.
        -- now apply ascending_without.
        -- rewrite Forall_forall in *. intros x Hx. apply Hr.
           apply list_elem_of_In, (in_ids_without n). now apply list_elem_of_In.
        -- pose proof (lastId_without n ms m (ascending_sorted _ Ha) Hm
                         ltac:(lia)). lia.
      * repeat split; [assumption | assumption | lia].
Qed.

(** C2, amended.  On a store whose ids are strictly ascending and fit an
    [int], a sequence of [Add] and [Remove] commands leaves the ids strictly
    ascending and unique, as long as the last id plus the number of [Add]s
    does not go beyond the largest [int]. *)
Theorem run_keeps_order (ops : list operation) (stored : list Memento) :
  ascending stored ->
  Forall GoInt.in_range (ids stored) ->
  lastId stored + Z.of_nat (adds ops) <= GoInt.maxInt ->
  ascending (run ops stored) /\ NoDup (ids (run ops stored)).
Proof.
  intros Ha Hr Hb.
  enough (H : ascending (run ops stored)) by (split; [exact H | now apply ascending_NoDup]).
  revert stored Ha Hr Hb. induction ops as [|o ops IH]; intros stored Ha Hr Hb.
  - exact Ha.
  - cbn [run fold_left]. fold (run ops (invoke (perform o) stored)).
    assert (Hsplit : Z.of_nat (adds (o :: ops))
                     = Z.of_nat (adds [o]) + Z.of_nat (adds ops)).
    { destruct o; cbn [adds]; lia. }
    destruct (perform_keeps_order o stored Ha Hr) as (Ha' & Hr' & Hl'); [lia|].
    apply IH; [assumption | assumption | lia].
Qed.

Lemma run_keeps_order_witness :
  ascending (run [Add 1700000200 ["add"; "feed"; "the"; "cat"]; Remove ["rm"; "2"];
                  Add 1700000300 ["add"; "stretch"]] sample) /\
  NoDup (ids (run [Add 1700000200 ["add"; "feed"; "the"; "cat"]; Remove ["rm"; "2"];
                   Add 1700000300 ["add"; "stretch"]] sample)).
Proof.
  apply (run_keeps_order
           [Add 1700000200 ["add"; "feed"; "the"; "cat"]; Remove ["rm"; "2"];
            Add 1700000300 ["add"; "stretch"]] sample).
  - unfold ascending, sample. simpl. repeat constructor.
  - unfold sample. simpl. repeat constructor; vm_compute; discriminate.
  - vm_compute. discriminate.
Defined.

(** ** Adding, then removing the new record (C6) *)

(** C6 as stated fails on [full]: the id [add] assigns has wrapped around to
    the smallest [int], [remove] rejects it as an invalid id, and the file
    keeps the added record. *)
Lemma remove_rejects_wrapped_id :
  ascending full /\
  (exists m,
      invoke (add 1700000200 ["add"; "one"; "more"]) full = full ++ [m] /\
      Id m = -9223372036854775808) /\
  fst (remove ["rm"; "-9223372036854775808"]
         (boot (invoke (add 1700000200 ["add"; "one"; "more"]) full)))
  = inl (InvalidId "-9223372036854775808") /\
  invoke (remove ["rm"; "-9223372036854775808"])
    (invoke (add 1700000200 ["add"; "one"; "more"]) full) <> full.
Proof.
  split; [|split; [|split]].
  - unfold ascending, full. simpl. repeat constructor.
  - exists {| Id := -9223372036854775808; Msg := "one more";
              Time := 1700000200; Priority := 1 |}.
    split; vm_compute; reflexivity.
  - vm_compute. reflexivity.
  - vm_compute. discriminate.
Qed.

(** C6, amended.  On a store whose ids are strictly ascending and whose
    last id is at least -1 and below the largest [int] (so that the new id
    is the last id plus 1 and is not negative), [add] followed by [remove]
    of the id just assigned leaves the file as it was before the two. *)
Theorem add_then_remove_restores
    (now : Z) (add_args rm_args : list string) (stored : list Memento) :
  ascending stored ->
  -1 <= lastId stored < GoInt.maxInt ->
  (2 <= length add_args)%nat ->
  parseId rm_args = inr (Id (added now add_args stored)) ->
  invoke (add now add_args) stored = stored ++ [added now add_args stored] /\
  invoke (remove rm_args) (invoke (add now add_args) stored) = stored.
Proof.
  intros Ha Hl Hargs Hid.
  assert (Hadd : invoke (add now add_args) stored
                 = stored ++ [added now add_args stored]).
  { rewrite invoke_add. destruct (Nat.ltb_spec (length add_args) 2); [lia|reflexivity]. }
  split; [exact Hadd|]. rewrite Hadd.
  set (m := added now add_args stored) in *.
  assert (Hm : Id m = lastId stored + 1).
  { apply added_Id. unfold GoInt.minInt, GoInt.intSize. lia. }
  assert (Ha' : ascending (stored ++ [m])) by (apply ascending_snoc; [assumption|lia]).
  assert (Hin : In (Id m) (ids (stored ++ [m]))).
  { unfold ids. rewrite map_app. apply in_or_app. right. now left. }
  destruct (find_present _ _ (ascending_sorted _ Ha') Hin) as [n Hfind].
  destruct (find_sound _ _ _ Hfind) as (r & Hr & Hrid).
  assert (Hn : n = length stored).
  { destruct (Nat.lt_ge_cases n (length stored)) as [Hlt|Hge].
    - rewrite lookup_app_l in Hr by exact Hlt.
      assert (Hrin : In (Id r) (ids stored)).
      { unfold ids. apply in_map, list_elem_of_In.
        eapply list_elem_of_lookup_2. exact Hr. }
      pose proof (lastId_largest _ _ (ascending_sorted _ Ha) Hrin). lia.
    - apply lookup_lt_Some in Hr. rewrite length_app in Hr. simpl in Hr. lia. }
  rewrite invoke_remove, Hid, Hfind. subst n.
  rewrite take_app_length, drop_app_ge by lia.
  replace (length stored + 1 - length stored)%nat with 1%nat by lia.
  simpl. apply app_nil_r.
Qed.

Lemma add_then_remove_restores_witness :
  invoke (add 1700000200 ["add"; "feed"; "the"; "cat"]) sample
  = sample ++ [added 1700000200 ["add"; "feed"; "the"; "cat"] sample] /\
  invoke (remove ["rm"; "6"])
    (invoke (add 1700000200 ["add"; "feed"; "the"; "cat"]) sample) = sample.
Proof.
  apply (add_then_remove_restores 1700000200 ["add"; "feed"; "the"; "cat"]
           ["rm"; "6"] sample).
  - unfold ascending, sample. simpl. repeat constructor.
  - vm_compute. split; [discriminate | reflexivity].
  - simpl. lia.
  - vm_compute. reflexivity.
Defined.

(** * More of the program *)

(** ** Decimal texts: printing and parsing *)



Lemma digits_nonneg s acc n : strconv.digits s acc = Some n -> 0 <= acc -> 0 <= n.
Proof.
  revert acc. induction s as [|c s IH]; simpl; intros acc H Hacc.
  - injection H as <-. exact Hacc.
  - destruct (strconv.digit c) as [d|] eqn:Hd; [|discriminate].
    apply (IH _ H). unfold strconv.digit in Hd.
    destruct (_ && _) eqn:E; [|discriminate]. injection Hd as <-.
    apply andb_prop in E. destruct E as [E _]. apply Z.leb_le in E. lia.
Qed.




Lemma ParseUint_nonneg s n : strconv.ParseUint s = Some n -> 0 <= n.
Proof.
  unfold strconv.ParseUint. destruct s; [discriminate|].
  intros H. apply (digits_nonneg _ _ _ H). lia.
Qed.

Lemma ParseInt_in_range s n : strconv.ParseInt s = Some n -> GoInt.in_range n.
Proof.
  unfold strconv.ParseInt. destruct s as [|c s]; [discriminate|].
  destruct (strconv.ParseUint _) as [un|] eqn:Hun; [|discriminate].
  pose proof (ParseUint_nonneg _ _ Hun) as Hnn.
  unfold GoInt.in_range, GoInt.minInt, GoInt.maxInt, GoInt.intSize.
  destruct (Ascii.eqb c "-"); cbn [negb andb].
  - destruct (Z.ltb_spec (2 ^ (64 - 1)) un); [discriminate|].
    intros [= <-]. lia.
  - destruct (Z.leb_spec (2 ^ (64 - 1)) un); [discriminate|].
    intros [= <-]. lia.
Qed.

(** ** [parseId] *)

Lemma parseId_error args e :
  parseId args = inl e -> e = MissingId \/ e = InvalidId (nth 1 args "").
Proof.
  unfold parseId. destruct (_ <? _)%nat; [intros [= <-]; now left|].
  destruct (strconv.ParseInt _) as [z|]; [destruct (z <? 0)|];
    intros [= <-]; now right.
Qed.

Lemma parseId_bounds args id : parseId args = inr id -> 0 <= id <= GoInt.maxInt.
Proof.
  unfold parseId. destruct (_ <? _)%nat; [discriminate|].
  destruct (strconv.ParseInt _) as [z|] eqn:Hz; [|discriminate].
  pose proof (ParseInt_in_range _ _ Hz) as [_ Hmax].
  destruct (Z.ltb_spec z 0); [discriminate|]. intros [= <-]. lia.
Qed.

(** X1. [parseId] reports a missing id exactly when there are fewer than two
    arguments; an id it returns is the number [args[1]] spells, and lies
    between 0 and the largest [int]; any other outcome is the invalid-id
    error carrying [args[1]]. *)
Theorem parseId_outcomes (args : list string) :
  ((length args < 2)%nat <-> parseId args = inl MissingId) /\
  (forall id, parseId args = inr id ->
              (2 <= length args)%nat /\
              strconv.ParseInt (nth 1 args "") = Some id /\
              0 <= id <= GoInt.maxInt) /\
  (forall e, parseId args = inl e -> e = MissingId \/ e = InvalidId (nth 1 args "")).
Proof.
  unfold parseId. destruct (Nat.ltb_spec (length args) 2) as [Hlt|Hge].
  - split; [tauto|]. split; [discriminate|]. intros e [= <-]. now left.
  - destruct (strconv.ParseInt (nth 1 args "")) as [z|] eqn:Hz.
    + pose proof (ParseInt_in_range _ _ Hz) as [_ Hmax].
      destruct (Z.ltb_spec z 0).
      * split; [split; [lia | discriminate]|].
        split; [discriminate|]. intros e [= <-]. now right.
      * split; [split; [lia | discriminate]|].
        split; [|discriminate]. intros id [= <-]. repeat split; [lia | lia | exact Hmax].
    + split; [split; [lia | discriminate]|].
      split; [discriminate|]. intros e [= <-]. now right.
Qed.



(** ** The segments of a modification *)

Lemma Split_nonempty s sep : strings.Split s sep <> [].
Proof.
  destruct s as [|c s]; simpl; [discriminate|].
  destruct (Ascii.eqb c sep); [discriminate|].
  destruct (strings.Split s sep); discriminate.
Qed.

(** X3. Splitting a text at its colons loses nothing but the colons: no
    segment holds a colon, and joining the segments with colons gives the
    text back. *)
Theorem Split_Join_inverse (s : string) :
  Forall colon_free (strings.Split s ":") /\
  strings.Join (strings.Split s ":") ":" = s.
Proof.
  unfold strings.Join, colon_free. induction s as [|c s [IHf IHj]].
  - split; [repeat constructor; simpl; tauto | reflexivity].
  - simpl. destruct (Ascii.eqb_spec c ":") as [->|Hc].
    + split; [constructor; [simpl; tauto | exact IHf]|].
      pose proof (Split_nonempty s ":") as Hne.
      simpl. destruct (strings.Split s ":") as [|seg segs]; [contradiction|].
      now rewrite IHj.
    + pose proof (Split_nonempty s ":") as Hne.
      destruct (strings.Split s ":") as [|seg segs]; [contradiction|].
      apply Forall_cons in IHf. destruct IHf as [Hseg Hsegs]. split.
      * constructor; [|exact Hsegs]. simpl. intros [H|H]; [now apply Hc | tauto].
      * rewrite <- IHj. destruct segs; reflexivity.
Qed.

(** ** The lookup finds the first record *)

Lemma Search_on_sorted ms id :
  sorted_by_id ms ->
  (sort.Search (length ms) (fun i => Id (nth i ms zeroMemento) >=? id)
   <= length ms)%nat /\
  (forall k m,
      (k < sort.Search (length ms) (fun i => Id (nth i ms zeroMemento) >=? id))%nat ->
      ms !! k = Some m -> Id m < id).
Proof.
  intros Hs.
  assert (Hss : StronglySorted Z.le (ids ms)).
  { apply Sorted_StronglySorted; [|exact Hs]. intros x y z; lia. }
  set (f := fun i => Id (nth i ms zeroMemento) >=? id).
  assert (Hnth : forall i, (i < length ms)%nat ->
                           ids ms !! i = Some (Id (nth i ms zeroMemento))).
  { intros i Hi. destruct (lookup_lt_is_Some_2 ms i Hi) as [m Hm].
    unfold ids. rewrite list_lookup_fmap, Hm. simpl.
    now rewrite (nth_lookup_Id _ _ _ Hm). }
  destruct (Search_loop_spec f 0 (length ms)) as (Hb & Hlo & _); [lia | |].
  { intros a b Hab Hb. unfold f. rewrite !Z.geb_leb, !Z.leb_le. intros Ha.
    pose proof (StronglySorted_lookup_le _ a b _ _ Hss (proj2 Hab)
                  (Hnth a ltac:(lia)) (Hnth b Hb)). lia. }
  fold (sort.Search (length ms) f) in Hb, Hlo.
  split; [lia|]. intros k m Hk Hm.
  specialize (Hlo k ltac:(lia)). unfold f in Hlo.
  rewrite (nth_lookup_Id _ _ _ Hm), Z.geb_leb in Hlo.
  apply Z.leb_gt in Hlo. exact Hlo.
Qed.

(** X4. On a sequence sorted by id, the index [findMementoById] returns is
    the first one that carries the id: every record before it has a smaller
    id. *)
Theorem findMementoById_first (ms : list Memento) (id : Z) (n : nat) :
  sorted_by_id ms ->
  findMementoById ms id = (n, true) ->
  (n < length ms)%nat /\
  forall k m, (k < n)%nat -> ms !! k = Some m -> Id m < id.
Proof.
  intros Hs Hfind. destruct (Search_on_sorted ms id Hs) as [_ Hbefore].
  destruct (find_sound _ _ _ Hfind) as (r & Hr & _).
  split; [now apply lookup_lt_Some in Hr|].
  unfold findMementoById in Hfind.
  destruct (_ && _); [|discriminate]. injection Hfind as <-. exact Hbefore.
Qed.

Lemma findMementoById_first_witness :
  (2 < length [ {| Id := 1; Msg := "a"; Time := 10; Priority := 1 |};
               {| Id := 3; Msg := "b"; Time := 20; Priority := 1 |};
               {| Id := 7; Msg := "c"; Time := 30; Priority := 1 |};
               {| Id := 7; Msg := "d"; Time := 40; Priority := 1 |} ])%nat /\
  forall k m,
    (k < 2)%nat ->
    [ {| Id := 1; Msg := "a"; Time := 10; Priority := 1 |};
      {| Id := 3; Msg := "b"; Time := 20; Priority := 1 |};
      {| Id := 7; Msg := "c"; Time := 30; Priority := 1 |};
      {| Id := 7; Msg := "d"; Time := 40; Priority := 1 |} ] !! k = Some m ->
    Id m < 7.
Proof.
  apply (findMementoById_first _ 7 2%nat).
  - unfold sorted_by_id. simpl. repeat constructor; lia.
  - vm_compute. reflexivity.
Defined.

(** ** Every outcome of [remove] *)

Lemma remove_cases (args : list string) (w : world) :
  exists w',
    (exists e, remove args w = (inl e, w') /\ e <> Panic /\
               file w' = file w /\ writes w' = writes w) \/
    (exists id n m,
        remove args w = (inr tt, w') /\
        parseId args = inr id /\
        file w !! n = Some m /\ Id m = id /\
        file w' = take n (file w) ++ drop (S n) (file w) /\
        writes w' = S (writes w)).
Proof.
  destruct (parseId args) as [e|id] eqn:Hid.
  - exists w. left. exists e. split; [now apply remove_run_rejected|].
    split; [|split; reflexivity].
    destruct (parseId_error args e Hid) as [->| ->]; discriminate.
  - destruct (findMementoById (file w) id) as [n [|]] eqn:Hfind.
    + destruct (find_sound _ _ _ Hfind) as (m & Hm & Hidm).
      eexists. right. exists id, n, m.
      split; [apply (remove_run_found _ _ _ _ Hid Hfind)|].
      cbn [file writes]. rewrite Nat.add_1_r. repeat split; assumption.
    + eexists. left. exists (DoesNotExist id).
      split; [apply (remove_run_missing _ _ _ _ Hid Hfind)|].
      split; [discriminate | split; reflexivity].
Qed.


Lemma filter_keeps_all {A} (f : A -> bool) (l : list A) :
  (forall x, In x l -> f x = true) -> List.filter f l = l.
Proof.
  induction l as [|a l IH]; simpl; intros H; [reflexivity|].
  rewrite (H a) by now left. f_equal. apply IH. intros x Hx. apply H. now right.
Qed.

Lemma ascending_around (l1 l2 : list Memento) (m : Memento) :
  ascending (l1 ++ m :: l2) ->
  (forall x, In x l1 -> Id x < Id m) /\ (forall x, In x l2 -> Id m < Id x).
Proof.
  rewrite ascending_strong. unfold ids. rewrite map_app. simpl.
  intros H. apply StronglySorted_app in H. destruct H as (Hcross & _ & Hr).
  split.
  - intros x Hx. apply Hcross; [apply list_elem_of_In; now apply in_map | left].
  - apply StronglySorted_cons in Hr. destruct Hr as [Hall _].
    rewrite Forall_forall in Hall. intros x Hx. apply Hall.
    apply list_elem_of_In. now apply in_map.
Qed.

(** X6. On a store with strictly ascending ids that holds the id, [remove]
    succeeds and the file it writes is the old one without the records of
    that id: the id is gone, one record fewer is stored, and every other
    record is kept in place. *)
Theorem remove_deletes_the_id (args : list string) (id : Z) (w : world) :
  ascending (file w) ->
  parseId args = inr id ->
  In id (ids (file w)) ->
  exists w',
    remove args w = (inr tt, w') /\
    file w' = List.filter (fun m => negb (Id m =? id)) (file w) /\
    ~ In id (ids (file w')) /\
    S (length (file w')) = length (file w).
Proof.
  intros Ha Hid Hin.
  destruct (find_present _ _ (ascending_sorted _ Ha) Hin) as [n Hfind].
  destruct (find_sound _ _ _ Hfind) as (m & Hm & Hidm).
  eexists. split; [apply (remove_run_found _ _ _ _ Hid Hfind)|].
  cbn [file]. rewrite Nat.add_1_r.
  pose proof (take_drop_middle _ _ _ Hm) as Hmid.
  rewrite <- Hmid in Ha. destruct (ascending_around _ _ _ Ha) as [Hlo Hhi].
  assert (Hfilter : List.filter (fun r => negb (Id r =? id)) (file w)
                    = take n (file w) ++ drop (S n) (file w)).
  { rewrite <- Hmid at 1. rewrite List.filter_app. simpl.
    replace (Id m =? id) with true by (symmetry; apply Z.eqb_eq; exact Hidm).
    simpl. f_equal; apply filter_keeps_all; intros x Hx.
    - specialize (Hlo x Hx). destruct (Z.eqb_spec (Id x) id); [lia | reflexivity].
    - specialize (Hhi x Hx). destruct (Z.eqb_spec (Id x) id); [lia | reflexivity]. }
  split; [now rewrite Hfilter|]. split.
  - unfold ids. rewrite map_app. intros H. apply in_app_or in H.
    destruct H as [H|H]; apply in_map_iff in H; destruct H as (x & Hx & Hxin).
    + specialize (Hlo x Hxin). lia.
    + specialize (Hhi x Hxin). lia.
  - rewrite length_app, length_take, length_drop.
    apply lookup_lt_Some in Hm. lia.
Qed.

Lemma remove_deletes_the_id_witness :
  exists w',
    remove ["rm"; "2"] (boot sample) = (inr tt, w') /\
    file w' = List.filter (fun m => negb (Id m =? 2)) (file (boot sample)) /\
    ~ In 2 (ids (file w')) /\
    S (length (file w')) = length (file (boot sample)).
Proof.
  apply (remove_deletes_the_id ["rm"; "2"] 2 (boot sample)).
  - unfold ascending, sample. simpl. repeat constructor.
  - reflexivity.
  - simpl. right. left. reflexivity.
Defined.

(** ** Every outcome of [modify] *)

Lemma modify_run_short args w :
  (length args < 3)%nat -> modify args w = (inl NotEnoughArguments, w).
Proof.
  intros H. unfold modify.
  destruct (Nat.ltb_spec (length args) 3) as [_|?]; [reflexivity | lia].
Qed.

Lemma modify_run_rejected args e w :
  (3 <= length args)%nat -> parseId args = inl e -> modify args w = (inl e, w).
Proof.
  intros H Hid. unfold modify.
  destruct (Nat.ltb_spec (length args) 3) as [?|_]; [lia|]. now rewrite Hid.
Qed.

(** [modify] once the record is found: the cases of the modification. *)
Lemma modify_found args id n m w :
  (3 <= length args)%nat ->
  parseId args = inr id ->
  findMementoById (file w) id = (n, true) ->
  file w !! n = Some m ->
  modify args w =
  match strings.Split (nth 2 args "") ":" with
  | field :: v :: _ =>
      if regexp.MatchString regexp.rePriority field then
        match strconv.ParseInt v with
        | Some value =>
            (inr tt,
             {| file := <[n := with_Priority m value]> (file w);
                writes := S (writes w);
                heap := heap w ++ <[n := with_Priority m value]> (file w);
                stdout := stdout w |})
        | None =>
            (inl (NotANumber v),
             {| file := file w; writes := writes w;
                heap := heap w ++ file w; stdout := stdout w |})
        end
      else if regexp.MatchString regexp.reMsg field then
        (inr tt,
         {| file := <[n := with_Msg m field]> (file w);
            writes := S (writes w);
            heap := heap w ++ <[n := with_Msg m field]> (file w);
            stdout := stdout w |})
      else
        (inl (InvalidProperty field),
         {| file := file w; writes := writes w;
            heap := heap w ++ file w; stdout := stdout w |})
  | _ =>
      (inl BadModification,
       {| file := file w; writes := writes w;
          heap := heap w ++ file w; stdout := stdout w |})
  end.
Proof.
  intros Hargs Hid Hfind Hm.
  destruct (strings.Split (nth 2 args "") ":") as [|field [|v rest]] eqn:Hsplit.
  - now destruct (Split_nonempty _ _ Hsplit).
  - unfold modify.
    destruct (Nat.ltb_spec (length args) 3) as [?|_]; [lia|].
    lookup_phase Hid w. rewrite Hfind. cbn [negb].
    unfold index. rewrite lookup_seq_lt by (apply lookup_lt_Some in Hm; lia).
    unfold bind at 1. unfold ret at 1. now rewrite Hsplit.
  - destruct (regexp.MatchString regexp.rePriority field) eqn:Hpri;
      [destruct (strconv.ParseInt v) as [value|] eqn:Hv
      | destruct (regexp.MatchString regexp.reMsg field) eqn:Hmsg].
    + now apply (modify_run_priority args id n m field v rest value).
    + unfold modify.
      destruct (Nat.ltb_spec (length args) 3) as [?|_]; [lia|].
      lookup_phase Hid w. rewrite Hfind. cbn [negb].
      unfold index. rewrite lookup_seq_lt by (apply lookup_lt_Some in Hm; lia).
      unfold bind at 1. unfold ret at 1.
      rewrite Hsplit. cbn [nth length Nat.ltb Nat.leb]. now rewrite Hpri, Hv.
    + now apply (modify_run_msg args id n m field v rest).
    + unfold modify.
      destruct (Nat.ltb_spec (length args) 3) as [?|_]; [lia|].
      lookup_phase Hid w. rewrite Hfind. cbn [negb].
      unfold index. rewrite lookup_seq_lt by (apply lookup_lt_Some in Hm; lia).
      unfold bind at 1. unfold ret at 1.
      rewrite Hsplit. cbn [nth length Nat.ltb Nat.leb]. now rewrite Hpri, Hmsg.
Qed.

Lemma ids_insert n m m' ms :
  ms !! n = Some m -> Id m' = Id m -> ids (<[n := m']> ms) = ids ms.
Proof.
  intros Hm Hid. unfold ids. change (map Id) with (fmap (M := list) Id).
  rewrite list_fmap_insert, Hid. apply list_insert_id.
  now rewrite list_lookup_fmap, Hm.
Qed.

Lemma times_insert n m m' ms :
  ms !! n = Some m -> Time m' = Time m -> map Time (<[n := m']> ms) = map Time ms.
Proof.
  intros Hm Hid. change (map Time) with (fmap (M := list) Time).
  rewrite list_fmap_insert, Hid. apply list_insert_id.
  now rewrite list_lookup_fmap, Hm.
Qed.

Lemma modify_cases (args : list string) (w : world) :
  exists w',
    (exists e, modify args w = (inl e, w') /\ e <> Panic /\
               file w' = file w /\ writes w' = writes w) \/
    (modify args w = (inr tt, w') /\
     writes w' = S (writes w) /\
     ids (file w') = ids (file w) /\
     map Time (file w') = map Time (file w) /\
     exists n, forall j, j <> n -> file w' !! j = file w !! j).
Proof.
  destruct (Nat.lt_ge_cases (length args) 3) as [Hshort|Hargs].
  { exists w. left. exists NotEnoughArguments.
    split; [now apply modify_run_short|]. split; [discriminate | split; reflexivity]. }
  destruct (parseId args) as [e|id] eqn:Hid.
  { exists w. left. exists e. split; [now apply modify_run_rejected|].
    split; [|split; reflexivity].
    destruct (parseId_error args e Hid) as [->| ->]; discriminate. }
  destruct (findMementoById (file w) id) as [n [|]] eqn:Hfind.
  2:{ eexists. left. exists (DoesNotExist id).
      split; [apply (modify_run_missing _ _ _ _ Hargs Hid Hfind)|].
      split; [discriminate | split; reflexivity]. }
  destruct (find_sound _ _ _ Hfind) as (m & Hm & _).
  rewrite (modify_found _ _ _ _ _ Hargs Hid Hfind Hm).
  destruct (strings.Split (nth 2 args "") ":") as [|field [|v rest]].
  - eexists. left. eexists. split; [reflexivity|].
    split; [discriminate | split; reflexivity].
  - eexists. left. eexists. split; [reflexivity|].
    split; [discriminate | split; reflexivity].
  - destruct (regexp.MatchString regexp.rePriority field);
      [destruct (strconv.ParseInt v) as [value|]
      | destruct (regexp.MatchString regexp.reMsg field)].
    + eexists. right. split; [reflexivity|]. cbn [file writes].
      split; [reflexivity|]. split; [now apply (ids_insert n m)|].
      split; [now apply (times_insert n m)|].
      exists n. intros j Hj. now apply list_lookup_insert_ne.
    + eexists. left. eexists. split; [reflexivity|].
      split; [discriminate | split; reflexivity].
    + eexists. right. split; [reflexivity|]. cbn [file writes].
      split; [reflexivity|]. split; [now apply (ids_insert n m)|].
      split; [now apply (times_insert n m)|].
      exists n. intros j Hj. now apply list_lookup_insert_ne.
    + eexists. left. eexists. split; [reflexivity|].
      split; [discriminate | split; reflexivity].
Qed.


(** X8. When the store is sorted and holds the id, [modify] rejects a
    modification with no colon as ill-formed, a priority whose value is not
    a number as not a number, and a key that starts neither with [pri] nor
    with [m] as an invalid property. *)
Theorem modify_rejections (args : list string) (id : Z) (w : world) :
  sorted_by_id (file w) ->
  In id (ids (file w)) ->
  (3 <= length args)%nat ->
  parseId args = inr id ->
  (colon_free (nth 2 args "") -> fst (modify args w) = inl BadModification) /\
  (forall field v rest,
      strings.Split (nth 2 args "") ":" = field :: v :: rest ->
      (regexp.MatchString regexp.rePriority field = true ->
       strconv.ParseInt v = None ->
       fst (modify args w) = inl (NotANumber v)) /\
      (regexp.MatchString regexp.rePriority field = false ->
       regexp.MatchString regexp.reMsg field = false ->
       fst (modify args w) = inl (InvalidProperty field))).
Proof.
  intros Hs Hin Hargs Hid.
  destruct (find_present _ _ Hs Hin) as [n Hfind].
  destruct (find_sound _ _ _ Hfind) as (m & Hm & _).
  rewrite (modify_found _ _ _ _ _ Hargs Hid Hfind Hm). split.
  - intros Hfree. now rewrite (Split_colon_free _ Hfree).
  - intros field v rest ->. split.
    + intros -> ->. reflexivity.
    + intros -> ->. reflexivity.
Qed.

Lemma modify_rejections_witness :
  (colon_free (nth 2 ["mod"; "2"; "colour:red"] "") ->
   fst (modify ["mod"; "2"; "colour:red"] (boot sample)) = inl BadModification) /\
  (forall field v rest,
      strings.Split (nth 2 ["mod"; "2"; "colour:red"] "") ":" = field :: v :: rest ->
      (regexp.MatchString regexp.rePriority field = true ->
       strconv.ParseInt v = None ->
       fst (modify ["mod"; "2"; "colour:red"] (boot sample)) = inl (NotANumber v)) /\
      (regexp.MatchString regexp.rePriority field = false ->
       regexp.MatchString regexp.reMsg field = false ->
       fst (modify ["mod"; "2"; "colour:red"] (boot sample))
       = inl (InvalidProperty field))).
Proof.
  apply (modify_rejections ["mod"; "2"; "colour:red"] 2 (boot sample)).
  - unfold sorted_by_id. simpl. repeat constructor; lia.
  - simpl. right. left. reflexivity.
  - simpl. lia.
  - reflexivity.
Defined.

(** ** The lookup reads the ids only *)

Lemma Search_loop_ext f g i j :
  (forall k, f k = g k) -> sort.Search_loop f i j = sort.Search_loop g i j.
Proof.
  intros Hfg. remember (j - i)%nat as d eqn:Hd. revert i j Hd.
  induction d as [d IH] using lt_wf_ind. intros i j Hd.
  rewrite (sort.Search_loop_equation_1 f i j), (sort.Search_loop_equation_1 g i j).
  destruct (lt_dec i j) as [Hlt|]; [|reflexivity].
  unfold sort.Search_loop_unfold_clause_1. cbv zeta.
  pose proof (half_between i j Hlt) as Hh.
  rewrite <- Hfg. destruct (f ((i + j) / 2)%nat); cbn [negb].
  - apply (IH (((i + j) / 2) - i)%nat); [lia | reflexivity].
  - apply (IH (j - ((i + j) / 2 + 1))%nat); [lia | reflexivity].
Qed.

Lemma nth_Id ms i : Id (nth i ms zeroMemento) = nth i (ids ms) 0.
Proof. unfold ids. now rewrite <- (map_nth Id). Qed.

Lemma find_by_ids ms ms' id :
  ids ms = ids ms' -> findMementoById ms id = findMementoById ms' id.
Proof.
  intros Hids. unfold findMementoById.
  assert (Hlen : length ms = length ms').
  { rewrite <- (length_map Id ms), <- (length_map Id ms'). unfold ids in Hids.
    now rewrite Hids. }
  rewrite Hlen. unfold sort.Search.
  rewrite (Search_loop_ext _ (fun i => Id (nth i ms' zeroMemento) >=? id)).
  - now rewrite !nth_Id, Hids.
  - intros k. now rewrite !nth_Id, Hids.
Qed.

(** ** Commands one after the other *)

Lemma invoke_modify_priority args id n m field v rest value stored :
  (3 <= length args)%nat ->
  parseId args = inr id ->
  findMementoById stored id = (n, true) ->
  stored !! n = Some m ->
  strings.Split (nth 2 args "") ":" = field :: v :: rest ->
  regexp.MatchString regexp.rePriority field = true ->
  strconv.ParseInt v = Some value ->
  invoke (modify args) stored = <[n := with_Priority m value]> stored.
Proof.
  intros Hargs Hid Hfind Hm Hsplit Hpri Hv. unfold invoke.
  now rewrite (modify_run_priority args id n m field v rest value (boot stored)).
Qed.

(** X9. Two priority modifications of the same record, one process after
    the other: the file ends up as if only the second had run. *)
Theorem modify_priority_last_wins
    (args1 args2 : list string) (id : Z)
    (field1 v1 field2 v2 : string) (rest1 rest2 : list string)
    (value1 value2 : Z) (stored : list Memento) :
  sorted_by_id stored ->
  In id (ids stored) ->
  (3 <= length args1)%nat -> (3 <= length args2)%nat ->
  parseId args1 = inr id -> parseId args2 = inr id ->
  strings.Split (nth 2 args1 "") ":" = field1 :: v1 :: rest1 ->
  strings.Split (nth 2 args2 "") ":" = field2 :: v2 :: rest2 ->
  regexp.MatchString regexp.rePriority field1 = true ->
  regexp.MatchString regexp.rePriority field2 = true ->
  strconv.ParseInt v1 = Some value1 ->
  strconv.ParseInt v2 = Some value2 ->
  invoke (modify args2) (invoke (modify args1) stored)
  = invoke (modify args2) stored.
Proof.
  intros Hs Hin Ha1 Ha2 Hid1 Hid2 Hs1 Hs2 Hp1 Hp2 Hv1 Hv2.
  destruct (find_present _ _ Hs Hin) as [n Hfind].
  destruct (find_sound _ _ _ Hfind) as (m & Hm & _).
  rewrite (invoke_modify_priority args1 id n m field1 v1 rest1 value1 stored)
    by assumption.
  rewrite (invoke_modify_priority args2 id n m field2 v2 rest2 value2 stored)
    by assumption.
  rewrite (invoke_modify_priority args2 id n (with_Priority m value1)
             field2 v2 rest2 value2); try assumption.
  - now rewrite list_insert_insert_eq.
  - rewrite <- Hfind. apply find_by_ids. now apply (ids_insert n m).
  - apply list_lookup_insert_eq. now apply lookup_lt_Some in Hm.
Qed.

Lemma modify_priority_last_wins_witness :
  invoke (modify ["mod"; "2"; "priority:9"])
    (invoke (modify ["mod"; "2"; "pri:4"]) sample)
  = invoke (modify ["mod"; "2"; "priority:9"]) sample.
Proof.
  apply (modify_priority_last_wins ["mod"; "2"; "pri:4"] ["mod"; "2"; "priority:9"]
           2 "pri" "4" "priority" "9" [] [] 4 9 sample).
  - unfold sorted_by_id. simpl. repeat constructor; lia.
  - simpl. right. left. reflexivity.
  - simpl. lia.
  - simpl. lia.
  - reflexivity.
  - reflexivity.
  - reflexivity.
  - reflexivity.
  - reflexivity.
  - reflexivity.
  - reflexivity.
  - reflexivity.
Defined.

Lemma find_last ms m :
  ascending (ms ++ [m]) ->
  findMementoById (ms ++ [m]) (Id m) = (length ms, true).
Proof.
  intros Ha.
  assert (Hin : In (Id m) (ids (ms ++ [m]))).
  { unfold ids. rewrite map_app. apply in_or_app. right. now left. }
  destruct (find_present _ _ (ascending_sorted _ Ha) Hin) as [n Hfind].
  destruct (find_sound _ _ _ Hfind) as (r & Hr & Hrid).
  rewrite Hfind. f_equal.
  destruct (Nat.lt_ge_cases n (length ms)) as [Hlt|Hge].
  - rewrite lookup_app_l in Hr by exact Hlt.
    apply (take_drop_middle ms n r) in Hr.
    rewrite <- Hr, <- app_assoc in Ha. simpl in Ha.
    destruct (ascending_around _ _ _ Ha) as [_ Hhi].
    specialize (Hhi m ltac:(apply in_or_app; right; now left)). lia.
  - apply lookup_lt_Some in Hr. rewrite length_app in Hr. simpl in Hr. lia.
Qed.

(** X10. Ids are handed out again.  On a store with strictly ascending ids,
    removing the last record and then adding a message leaves the other
    records followed by the new one, whose id is computed from the record
    that is now last; when that record's id is one below the removed id,
    the new record gets the removed id. *)
Theorem remove_last_then_add
    (now : Z) (rm_args add_args : list string) (ms : list Memento) (m : Memento) :
  ascending (ms ++ [m]) ->
  parseId rm_args = inr (Id m) ->
  (2 <= length add_args)%nat ->
  run [Remove rm_args; Add now add_args] (ms ++ [m])
  = ms ++ [added now add_args ms] /\
  (lastId ms + 1 = Id m -> Id (added now add_args ms) = Id m).
Proof.
  intros Ha Hid Hargs. split.
  - cbn [run fold_left perform].
    rewrite invoke_remove, Hid, (find_last _ _ Ha).
    rewrite take_app_length, drop_app_ge by lia.
    replace (length ms + 1 - length ms)%nat with 1%nat by lia.
    cbn [drop]. rewrite app_nil_r, invoke_add.
    destruct (Nat.ltb_spec (length add_args) 2); [lia | reflexivity].
  - intros Hnext. cbn [added Id]. unfold GoInt.plus. rewrite Hnext.
    apply wrap_in_range.
    pose proof (parseId_bounds _ _ Hid) as Hr.
    unfold GoInt.in_range, GoInt.minInt, GoInt.intSize. lia.
Qed.

Lemma remove_last_then_add_witness :
  run [Remove ["rm"; "3"]; Add 1700000200 ["add"; "again"]]
    ([ {| Id := 1; Msg := "a"; Time := 10; Priority := 1 |};
       {| Id := 2; Msg := "b"; Time := 20; Priority := 1 |} ]
     ++ [ {| Id := 3; Msg := "c"; Time := 30; Priority := 1 |} ])
  = [ {| Id := 1; Msg := "a"; Time := 10; Priority := 1 |};
      {| Id := 2; Msg := "b"; Time := 20; Priority := 1 |} ]
    ++ [added 1700000200 ["add"; "again"]
          [ {| Id := 1; Msg := "a"; Time := 10; Priority := 1 |};
            {| Id := 2; Msg := "b"; Time := 20; Priority := 1 |} ]] /\
  (lastId [ {| Id := 1; Msg := "a"; Time := 10; Priority := 1 |};
            {| Id := 2; Msg := "b"; Time := 20; Priority := 1 |} ] + 1
   = Id {| Id := 3; Msg := "c"; Time := 30; Priority := 1 |} ->
   Id (added 1700000200 ["add"; "again"]
         [ {| Id := 1; Msg := "a"; Time := 10; Priority := 1 |};
           {| Id := 2; Msg := "b"; Time := 20; Priority := 1 |} ])
   = Id {| Id := 3; Msg := "c"; Time := 30; Priority := 1 |}).
Proof.
  apply (remove_last_then_add 1700000200 ["rm"; "3"] ["add"; "again"]).
  - unfold ascending. simpl. repeat constructor.
  - reflexivity.
  - simpl. lia.
Defined.

(** ** [fetch] on any store *)

Lemma world_eta w :
  {| file := file w; writes := writes w; heap := heap w; stdout := stdout w |} = w.
Proof. now destruct w. Qed.

Lemma fetch_empty_run (Intn : Z -> nat -> nat) (now : Z) (w : world) :
  file w = [] ->
  fetch Intn now w = (inr tt, w).
Proof.
  intros Hw. unfold fetch.
  rewrite (bind_ok _ _ _ _ _ (readMementos_run w)).
  rewrite length_seq, Hw. cbn [length Nat.ltb Nat.leb]. unfold ret.
  rewrite app_nil_r, <- Hw. now rewrite world_eta.
Qed.

(** X11. On an empty store [fetch] returns at once: nothing is printed, no
    number is drawn and the world is as before, whatever the generator. *)
Theorem fetch_on_empty_store (Intn : Z -> nat -> nat) (now : Z) (w : world) :
  file w = [] ->
  fetch Intn now w = (inr tt, w).
Proof. apply fetch_empty_run. Qed.

Lemma fetch_on_empty_store_witness :
  file (boot []) = [] /\
  fetch (fun _ _ => 7%nat) 1700000200 (boot []) = (inr tt, boot []).
Proof.
  split; [reflexivity|].
  apply (fetch_on_empty_store (fun _ _ => 7%nat) 1700000200 (boot [])). reflexivity.
Defined.

(** With any generator at all, [fetch] leaves the file alone. *)
Lemma fetch_keeps_file Intn now w :
  file (snd (fetch Intn now w)) = file w /\
  writes (snd (fetch Intn now w)) = writes w.
Proof.
  unfold fetch. rewrite (bind_ok _ _ _ _ _ (readMementos_run w)).
  rewrite length_seq.
  destruct (length (file w) <? 1)%nat; [split; reflexivity|].
  unfold bind, index, load, Println, ret, fail.
  repeat match goal with
         | |- context [match ?x with Some _ => _ | None => _ end] =>
             destruct x; cbn [heap]
         end; split; reflexivity.
Qed.

Lemma fetch_run_nonempty Intn now w :
  (Intn now (length (file w)) < length (file w))%nat ->
  exists w', fetch Intn now w = (inr tt, w').
Proof.
  intros Hn. destruct (lookup_lt_is_Some_2 (file w) _ Hn) as [m Hm].
  unfold fetch. rewrite (bind_ok _ _ _ _ _ (readMementos_run w)).
  rewrite length_seq.
  destruct (Nat.ltb_spec (length (file w)) 1) as [?|_]; [lia|].
  unfold index. rewrite lookup_seq_lt by exact Hn.
  unfold bind at 1. unfold ret at 1. unfold bind, load. cbn [heap].
  rewrite lookup_app_r by lia.
  replace (length (heap w) + Intn now (length (file w)) - length (heap w))%nat
    with (Intn now (length (file w))) by lia.
  rewrite Hm. eexists. reflexivity.
Qed.

(** ** [list] and [main] *)

Lemma attempt_run (c : M unit) w :
  fst (c w) <> inl Panic -> exists o, attempt c w = (inr o, snd (c w)).
Proof.
  unfold attempt. destruct (c w) as [[e|[]] w']; simpl; intros H.
  - destruct e; try (eexists; reflexivity). contradiction.
  - eexists. reflexivity.
Qed.

Lemma attempt_keeps (c : M unit) w : snd (attempt c w) = snd (c w).
Proof.
  unfold attempt. destruct (c w) as [[e|[]] w']; [destruct e|]; reflexivity.
Qed.

Lemma add_cases now args w :
  fst (add now args w) <> inl Panic /\
  (writes w <= writes (snd (add now args w)) <= S (writes w))%nat.
Proof.
  destruct (Nat.lt_ge_cases (length args) 2) as [H|H].
  - rewrite add_missing_message by exact H. simpl. split; [discriminate | lia].
  - rewrite add_run by exact H. simpl. split; [discriminate | lia].
Qed.

Lemma remove_frugal args w :
  fst (remove args w) <> inl Panic /\
  (writes w <= writes (snd (remove args w)) <= S (writes w))%nat.
Proof.
  destruct (remove_cases args w)
    as [w' [(e & -> & He & _ & Hw)|(id & n & m & -> & _ & _ & _ & _ & Hw)]];
    simpl; rewrite Hw; split; try lia; congruence.
Qed.

Lemma modify_frugal args w :
  fst (modify args w) <> inl Panic /\
  (writes w <= writes (snd (modify args w)) <= S (writes w))%nat.
Proof.
  destruct (modify_cases args w)
    as [w' [(e & -> & He & _ & Hw)|(-> & Hw & _)]];
    simpl; rewrite Hw; split; try lia; congruence.
Qed.

Section CLIRuns.

Variable Intn : Z -> nat -> nat.
Variable Format : Z -> string.
Variable RuneCountInString : string -> nat.
Variable Printf_no_operands : string -> string.

(** What [rand.Intn] promises: a value in [[0, n)] for every [0 < n]. *)
Hypothesis Intn_in_bounds : forall seed n, (0 < n)%nat -> (Intn seed n < n)%nat.

Lemma rows_run (h : list Memento) (ps : list ptr) (ms : list Memento) :
  points_to h ps ms ->
  forall f n o,
    forM_ ps (fun p => m <- load p ;; Print (row Format RuneCountInString m))
      {| file := f; writes := n; heap := h; stdout := o |} =
    (inr tt,
     {| file := f; writes := n; heap := h;
        stdout := o ++ map (row Format RuneCountInString) ms |}).
Proof.
  unfold points_to. induction 1 as [|p m ps ms Hp _ IH]; intros f n o.
  - simpl. unfold ret. now rewrite app_nil_r.
  - cbn [forM_ map]. unfold bind at 1. unfold bind at 1. unfold load at 1.
    cbn [heap]. rewrite Hp. unfold Print at 1. cbn [file writes heap stdout].
    rewrite IH. now rewrite <- app_assoc.
Qed.

Lemma list_run w :
  list_mementos Format RuneCountInString w =
  (inr tt,
   {| file := file w; writes := writes w; heap := heap w ++ file w;
      stdout := stdout w ++ [header]
                ++ map (row Format RuneCountInString) (file w)
                ++ [total (length (file w))] |}).
Proof.
  unfold list_mementos.
  rewrite (bind_ok _ _ _ _ _ (readMementos_run w)).
  unfold bind at 1. unfold Print at 1. cbn [file writes heap stdout].
  unfold bind at 1.
  rewrite (rows_run (heap w ++ file w) _ (file w) (points_to_fresh _ _)).
  unfold Print. cbn [file writes heap stdout].
  now rewrite length_seq, <- !app_assoc.
Qed.

(** X12. [list] returns [nil] and prints the heading, then one row for each
    stored record in stored order, then the line with the number of
    records; it does not write the file. *)
Theorem list_prints_every_record (w : world) :
  exists w',
    list_mementos Format RuneCountInString w = (inr tt, w') /\
    stdout w' = stdout w ++ [header]
                ++ map (row Format RuneCountInString) (file w)
                ++ [total (length (file w))] /\
    file w' = file w /\ writes w' = writes w.
Proof. eexists. split; [apply list_run|]. repeat split. Qed.

(** The error report that ends [main]. *)
Lemma report_run (err : option error) w :
  exists w',
    match err with
    | Some e => print_error Printf_no_operands e
    | None => ret tt
    end w = (inr tt, w') /\
    file w' = file w /\ writes w' = writes w.
Proof.
  destruct err; eexists; (split; [reflexivity|]); split; reflexivity.
Qed.

(** [main] around a command that does not panic. *)
Lemma main_around (c : M unit) w :
  fst (c w) <> inl Panic ->
  exists w',
    (err <- attempt c ;;
     match err with
     | Some e => print_error Printf_no_operands e
     | None => ret tt
     end) w = (inr tt, w') /\
    file w' = file (snd (c w)) /\ writes w' = writes (snd (c w)).
Proof.
  intros Hc. destruct (attempt_run c w Hc) as [o Ho].
  rewrite (bind_ok _ _ _ _ _ Ho). apply report_run.
Qed.

Lemma fetch_safe now w : fst (fetch Intn now w) <> inl Panic.
Proof.
  destruct (file w) as [|m ms] eqn:Hw.
  - rewrite fetch_empty_run by exact Hw. discriminate.
  - destruct (fetch_run_nonempty Intn now w) as [w' ->]; [|discriminate].
    apply Intn_in_bounds. rewrite Hw. simpl. lia.
Qed.

(** [main] on any arguments: it ends normally, it writes the file at most
    once, and not at all unless the command is one of the three that
    change the store. *)
Lemma main_cases now args w :
  exists w',
    main Intn Format RuneCountInString Printf_no_operands now args w = (inr tt, w') /\
    (writes w <= writes w' <= S (writes w))%nat /\
    (~ In (hd "fetch" args) ["add"; "rm"; "del"; "modify"; "mod"] ->
     file w' = file w /\ writes w' = writes w).
Proof.
  unfold main.
  replace (if (0 <? length args)%nat then nth 0 args "" else "fetch")
    with (hd "fetch" args) by (destruct args; reflexivity).
  set (command := hd "fetch" args).
  destruct (String.eqb_spec command "add") as [Hadd|Hadd].
  { destruct (add_cases now args w) as [Hp Hw].
    destruct (main_around (add now args) w Hp) as (w' & -> & Hf & Hn).
    exists w'. split; [reflexivity|]. rewrite Hn. split; [exact Hw|].
    intros H. exfalso. apply H. rewrite Hadd. now left. }
  destruct (String.eqb_spec command "fetch") as [Hfetch|Hfetch].
  { pose proof (fetch_safe now w) as Hp.
    destruct (attempt_run _ w Hp) as [o Ho].
    destruct (fetch_keeps_file Intn now w) as [Hf Hn].
    unfold bind at 1. unfold bind at 1. rewrite Ho. unfold ret.
    eexists. split; [reflexivity|]. rewrite Hn. split; [lia|]. now intros _. }
  destruct (String.eqb_spec command "rm") as [Hrm|Hrm];
    [|destruct (String.eqb_spec command "del") as [Hdel|Hdel]]; cbn [orb].
  1,2: destruct (remove_frugal args w) as [Hp Hw];
       destruct (main_around (remove args) w Hp) as (w' & -> & Hf & Hn);
       exists w'; (split; [reflexivity|]); rewrite Hn; (split; [exact Hw|]);
       intros H; exfalso; apply H;
       match goal with Heq : _ = String _ _ |- _ => rewrite Heq end; simpl; tauto.
  destruct (String.eqb_spec command "modify") as [Hmodify|Hmodify];
    [|destruct (String.eqb_spec command "mod") as [Hmod|Hmod]]; cbn [orb].
  1,2: destruct (modify_frugal args w) as [Hp Hw];
       destruct (main_around (modify args) w Hp) as (w' & -> & Hf & Hn);
       exists w'; (split; [reflexivity|]); rewrite Hn; (split; [exact Hw|]);
       intros H; exfalso; apply H;
       match goal with Heq : _ = String _ _ |- _ => rewrite Heq end; simpl; tauto.
  destruct (String.eqb_spec command "list") as [Hlist|Hlist];
    [|destruct (String.eqb_spec command "ls") as [Hls|Hls]]; cbn [orb].
  1,2: assert (Hp : fst (list_mementos Format RuneCountInString w) <> inl Panic)
         by (rewrite list_run; discriminate);
       destruct (main_around _ w Hp) as (w' & -> & Hf & Hn);
       rewrite list_run in Hf, Hn; cbn [snd file writes] in Hf, Hn;
       exists w'; (split; [reflexivity|]); rewrite Hn; (split; [lia|]);
       now intros _.
  destruct (String.eqb_spec command "version") as [Hversion|Hversion].
  { eexists. split; [reflexivity|]. cbn [writes file]. split; [lia|]. now intros _. }
  destruct (String.eqb_spec command "help") as [Hhelp|Hhelp].
  { eexists. split; [reflexivity|]. cbn [writes file]. split; [lia|]. now intros _. }
  eexists. split; [reflexivity|]. cbn [writes file]. split; [lia|]. now intros _.
Qed.


(** X14. Only [add], [rm], [del], [modify] and [mod] touch the data file:
    with any other first argument, or none, [main] leaves the file as it
    was and does not write it. *)
Theorem main_reads_only (now : Z) (args : list string) (w : world) :
  ~ In (hd "fetch" args) ["add"; "rm"; "del"; "modify"; "mod"] ->
  file (snd (main Intn Format RuneCountInString Printf_no_operands now args w))
  = file w /\
  writes (snd (main Intn Format RuneCountInString Printf_no_operands now args w))
  = writes w.
Proof.
  intros H. destruct (main_cases now args w) as (w' & -> & _ & Hro).
  exact (Hro H).
Qed.

(** X15. The aliases of [main]: [del] runs what [rm] runs, [mod] what
    [modify] runs, [ls] what [list] runs, and no argument at all what
    [fetch] runs; the commands do not look at the first argument. *)
Theorem main_aliases (now : Z) (rest : list string) (w : world) :
  main Intn Format RuneCountInString Printf_no_operands now ("del" :: rest) w
  = main Intn Format RuneCountInString Printf_no_operands now ("rm" :: rest) w /\
  main Intn Format RuneCountInString Printf_no_operands now ("mod" :: rest) w
  = main Intn Format RuneCountInString Printf_no_operands now ("modify" :: rest) w /\
  main Intn Format RuneCountInString Printf_no_operands now ("ls" :: rest) w
  = main Intn Format RuneCountInString Printf_no_operands now ("list" :: rest) w /\
  main Intn Format RuneCountInString Printf_no_operands now [] w
  = main Intn Format RuneCountInString Printf_no_operands now ("fetch" :: rest) w.
Proof.
  unfold main, remove, modify, parseId.
  cbn [length nth Nat.ltb Nat.leb].
  repeat split; reflexivity.
Qed.

End CLIRuns.


Lemma main_reads_only_witness :
  file (snd (main sample_Intn (fun _ => "3 days") String.length (fun s => s)
               1700000200 ["ls"] (boot sample)))
  = file (boot sample) /\
  writes (snd (main sample_Intn (fun _ => "3 days") String.length (fun s => s)
                 1700000200 ["ls"] (boot sample)))
  = writes (boot sample).
Proof.
  apply (main_reads_only sample_Intn (fun _ => "3 days") String.length (fun s => s)).
  - intros seed n H. apply Nat.mod_upper_bound. lia.
  - simpl. intros [H|[H|[H|[H|[H|[]]]]]]; discriminate H.
Defined.
